(** * Keybindings editor model: search and ordering

    A shallow embedding of
    [src/vs/workbench/parts/preferences/common/keybindingsEditorModel.ts]:
    the collection model [KeybindingsEditorModel] (fetch, resolve,
    compareKeybindingData, toKeybindingEntry, getId) and the entry matcher
    [KeybindingItemMatches] (matches, matchesWords, filterAndSort,
    matchesKeybinding, matchPart and the five per-flag checks).

    JavaScript strings are embedded as [string] (sequences of 8-bit
    characters); indices and lengths are [nat]; a value that may be
    [null]/[undefined] is an [option]; an array is a [list]; the
    [Map<string, boolean>] and the object used as a dictionary are [gmap]s. *)

From Stdlib Require Import ZArith List Bool Ascii String Lia Permutation Sorted.
From Stdlib Require Import DecimalString DecimalNat.
From stdpp Require Import gmap strings.
Import ListNotations.

(** ** JavaScript string built-ins and [vs/base/common/strings] *)

Module strings.

Definition isUpperAsciiLetter (c : ascii) : bool :=
  (65 <=? nat_of_ascii c) && (nat_of_ascii c <=? 90).

Definition isLowerAsciiLetter (c : ascii) : bool :=
  (97 <=? nat_of_ascii c) && (nat_of_ascii c <=? 122).

(** [String.prototype.toLowerCase] on one character: only the letters
    A-Z change in the 8-bit range modelled here. *)
Definition toLowerCaseChar (c : ascii) : ascii :=
  if isUpperAsciiLetter c then ascii_of_nat (nat_of_ascii c + 32) else c.

Fixpoint toLowerCase (s : string) : string :=
  match s with
  | EmptyString => EmptyString
  | String c r => String (toLowerCaseChar c) (toLowerCase r)
  end.

(** White space and line terminators removed by [String.prototype.trim]
    (tab, line feed, vertical tab, form feed, carriage return, space). *)
Definition isWhiteSpace (c : ascii) : bool :=
  let n := nat_of_ascii c in
  (n =? 9) || (n =? 10) || (n =? 11) || (n =? 12) || (n =? 13) || (n =? 32).

Fixpoint trimStart (s : string) : string :=
  match s with
  | EmptyString => EmptyString
  | String c r => if isWhiteSpace c then trimStart r else s
  end.

Fixpoint trimEnd (s : string) : string :=
  match s with
  | EmptyString => EmptyString
  | String c r =>
      match trimEnd r with
      | EmptyString => if isWhiteSpace c then EmptyString else String c EmptyString
      | r' => String c r'
      end
  end.

(** [String.prototype.trim]. *)
Definition trim (s : string) : string := trimEnd (trimStart s).

(** [s.split(sep)] for a one-character separator: never the empty array,
    and two adjacent separators give an empty piece. *)
Fixpoint split (sep : ascii) (s : string) : list string :=
  match s with
  | EmptyString => [EmptyString]
  | String c r =>
      if Ascii.eqb c sep then EmptyString :: split sep r
      else match split sep r with
           | [] => [String c EmptyString]
           | h :: t => String c h :: t
           end
  end.

(** [s.indexOf(sub)], with [None] for the result [-1]. *)
Definition indexOf (s sub : string) : option nat := String.index 0 sub s.

(** The JavaScript truth value of a string: every string but the empty one. *)
Definition truthy (s : string) : bool := negb (String.eqb s "").

(** Modelled from the spec: [strings.compareIgnoreCase] of
    [vs/base/common/strings], which is not among the sources; the spec
    uses it as the test "case-insensitively equals" (result [0]).  The
    characters are compared pairwise after folding A-Z to a-z; the first
    difference decides the sign, and a proper prefix sorts first. *)
Fixpoint compareIgnoreCase (a b : string) : Z :=
  match a, b with
  | EmptyString, EmptyString => 0
  | EmptyString, String _ _ => -1
  | String _ _, EmptyString => 1
  | String ca ra, String cb rb =>
      if Ascii.eqb ca cb then compareIgnoreCase ra rb
      else
        let codeA := Z.of_nat (nat_of_ascii (toLowerCaseChar ca)) in
        let codeB := Z.of_nat (nat_of_ascii (toLowerCaseChar cb)) in
        let diff := (codeA - codeB)%Z in
        if (diff =? 0)%Z then compareIgnoreCase ra rb
        else if isLowerAsciiLetter (toLowerCaseChar ca)
                && isLowerAsciiLetter (toLowerCaseChar cb)
             then diff
             else if (diff <? 0)%Z then (-1)%Z else 1%Z
  end.

(** Modelled from the spec: [strings.beginsWithIgnoreCase] of
    [vs/base/common/strings] (not among the sources), the test behind the
    case-insensitive prefix match: [candidate] is no longer than [str] and
    agrees with it, ignoring the case of A-Z, on its whole length. *)
Fixpoint doEqualsIgnoreCase (a b : string) (stopAt : nat) {struct stopAt} : bool :=
  match stopAt with
  | O => true
  | S n =>
      match a, b with
      | String ca ra, String cb rb =>
          Ascii.eqb (toLowerCaseChar ca) (toLowerCaseChar cb)
          && doEqualsIgnoreCase ra rb n
      | _, _ => false
      end
  end.

Definition beginsWithIgnoreCase (str candidate : string) : bool :=
  if String.length str <? String.length candidate then false
  else doEqualsIgnoreCase str candidate (String.length candidate).

(** [n + ''] for a non-negative integer: its decimal digits. *)
Definition ofNumber (n : nat) : string :=
  NilEmpty.string_of_uint (Nat.to_uint n).

End strings.

(** ** [vs/base/common/arrays] and [Array.prototype.sort] *)

Module arrays.

(** Modelled from the spec: [distinct(array, keyFn)] of
    [vs/base/common/arrays] (not among the sources), the "deduplicate"
    step: an element is kept when no earlier element has the same key. *)
Fixpoint distinctFrom {T : Type} (keyFn : T -> string) (seen : gset string)
    (array : list T) : list T :=
  match array with
  | [] => []
  | elem :: rest =>
      let key := keyFn elem in
      if decide (key ∈ seen) then distinctFrom keyFn seen rest
      else elem :: distinctFrom keyFn ({[ key ]} ∪ seen) rest
  end.

Definition distinct {T : Type} (array : list T) (keyFn : T -> string) : list T :=
  distinctFrom keyFn ∅ array.

(** [Array.prototype.sort(compareFn)].  The language leaves the algorithm
    to the engine; this is the insertion sort the engine of the time runs
    on short arrays: every element in turn moves left past the elements
    that compare greater than it. *)
Fixpoint insertLeft {T : Type} (compareFn : T -> T -> Z) (element : T)
    (reversedPrefix : list T) : list T :=
  match reversedPrefix with
  | [] => [element]
  | tmp :: rest =>
      if (0 <? compareFn tmp element)%Z
      then tmp :: insertLeft compareFn element rest
      else element :: reversedPrefix
  end.

Definition sort {T : Type} (compareFn : T -> T -> Z) (a : list T) : list T :=
  rev (fold_left (fun reversedPrefix element =>
                    insertLeft compareFn element reversedPrefix) a []).

End arrays.

(** ** [vs/base/common/filters] *)

Module filters.

(** [IMatch]: the half-open range [start, end) of matched characters. *)
Record IMatch : Type := { start : nat; end_ : nat }.

(** [IFilter]: [(word, wordToMatchAgainst) => IMatch[]], [null] when the
    word does not match. *)
Definition IFilter : Type := string -> string -> option (list IMatch).

(** Modelled from the spec: [or(...filter)] of [vs/base/common/filters]
    (not among the sources), the "logical OR" of filters: the result of
    the first filter of the list that matches. *)
Fixpoint or (filter : list IFilter) : IFilter :=
  fun word wordToMatchAgainst =>
    match filter with
    | [] => None
    | f :: rest =>
        match f word wordToMatchAgainst with
        | Some m => Some m
        | None => or rest word wordToMatchAgainst
        end
    end.

(** Modelled from the spec: [matchesPrefix] of [vs/base/common/filters]
    (not among the sources), the case-insensitive "prefix-match": [word]
    matches when [wordToMatchAgainst] is not empty and begins with it; the
    span covers the matched prefix. *)
Definition matchesPrefix : IFilter :=
  fun word wordToMatchAgainst =>
    if negb (strings.truthy wordToMatchAgainst)
       || (String.length wordToMatchAgainst <? String.length word)
    then None
    else if strings.beginsWithIgnoreCase wordToMatchAgainst word
         then Some (if 0 <? String.length word
                    then [ {| start := 0; end_ := String.length word |} ]
                    else [])
         else None.

(** Modelled from the spec: [matchesContiguousSubString] of
    [vs/base/common/filters] (not among the sources), the
    "contiguous-substring-match": the first occurrence of the lower-cased
    [word] in the lower-cased [wordToMatchAgainst]. *)
Definition matchesContiguousSubString : IFilter :=
  fun word wordToMatchAgainst =>
    match strings.indexOf (strings.toLowerCase wordToMatchAgainst)
                          (strings.toLowerCase word) with
    | None => None
    | Some index => Some [ {| start := index; end_ := index + String.length word |} ]
    end.

(** The word-boundary and camel-case matchers of [vs/base/common/filters]
    are not among the sources.  The model takes them as an interface: what
    is proved for every [WordMatchers] holds whatever spans they report. *)
Class WordMatchers : Type := {
  (** [matchesWords(word, target, contiguous = false)] *)
  matchesWords : string -> string -> bool -> option (list IMatch);
  (** [matchesCamelCase(word, camelCaseWord)] *)
  matchesCamelCase : IFilter
}.

End filters.

(** ** A model of the two word matchers, used for the worked examples *)

Module wordMatchers.
Import filters.

Definition code (c : ascii) : nat := nat_of_ascii c.
Definition isLower (c : ascii) : bool := (97 <=? code c) && (code c <=? 122).
Definition isUpper (c : ascii) : bool := (65 <=? code c) && (code c <=? 90).
Definition isNumber (c : ascii) : bool := (48 <=? code c) && (code c <=? 57).
Definition isWhitespace (c : ascii) : bool :=
  (code c =? 32) || (code c =? 9) || (code c =? 10) || (code c =? 13).
Definition isAlphanumeric (c : ascii) : bool :=
  isLower c || isUpper c || isNumber c.

(** The test [p] on the character at index [i]; [false] out of range. *)
Definition charIs (p : ascii -> bool) (s : string) (i : nat) : bool :=
  match String.get i s with Some c => p c | None => false end.

Definition join (head : IMatch) (tail : list IMatch) : list IMatch :=
  match tail with
  | [] => [head]
  | t0 :: rest =>
      if end_ head =? start t0
      then {| start := start head; end_ := end_ t0 |} :: rest
      else head :: tail
  end.

(** [for (i = start; i < len; i++) if (test(i)) return i; return len]. *)
Fixpoint scanFrom (test : nat -> bool) (len fuel i : nat) : nat :=
  match fuel with
  | O => len
  | S fuel' =>
      if i <? len
      then if test i then i else scanFrom test len fuel' (S i)
      else len
  end.

(** [while (i < len && (result = f(i)) === null) i = next(i + 1)]. *)
Fixpoint firstMatchFrom (f : nat -> option (list IMatch)) (next : nat -> nat)
    (len fuel i : nat) : option (list IMatch) :=
  match fuel with
  | O => None
  | S fuel' =>
      if i <? len
      then match f i with
           | Some r => Some r
           | None => firstMatchFrom f next len fuel' (next (S i))
           end
      else None
  end.

Definition nextWord (word : string) (start : nat) : nat :=
  scanFrom (fun i => charIs isWhitespace word i
                     || ((0 <? i) && charIs isWhitespace word (i - 1)))
           (String.length word) (String.length word) start.

Definition nextAnchor (camelCaseWord : string) (start : nat) : nat :=
  scanFrom (fun i => charIs isUpper camelCaseWord i
                     || charIs isNumber camelCaseWord i
                     || ((0 <? i) && negb (charIs isAlphanumeric camelCaseWord (i - 1))))
           (String.length camelCaseWord) (String.length camelCaseWord) start.

(** [_matchesWords(word, target, i, j, contiguous)]; [word] is the part of
    the lower-cased word from index [i] on. *)
Fixpoint _matchesWords (word : list ascii) (target : string) (contiguous : bool)
    (j : nat) {struct word} : option (list IMatch) :=
  match word with
  | [] => Some []
  | wi :: word' =>
      match String.get j target with
      | None => None
      | Some tj =>
          if negb (Ascii.eqb wi (strings.toLowerCaseChar tj)) then None
          else
            let result := _matchesWords word' target contiguous (S j) in
            let result :=
              match result with
              | Some r => Some r
              | None =>
                  if contiguous then None
                  else firstMatchFrom (_matchesWords word' target contiguous)
                         (nextWord target) (String.length target)
                         (S (String.length target)) (nextWord target (S j))
              end in
            option_map (join {| start := j; end_ := S j |}) result
      end
  end.

(** Modelled from the spec: [matchesWords] of [vs/base/common/filters]
    (not among the sources), the "word-boundary match": the lower-cased
    word is matched from the beginning of some word of the target, either
    contiguously or hopping to the beginnings of later words. *)
Definition matchesWords (word target : string) (contiguous : bool)
    : option (list IMatch) :=
  if negb (strings.truthy target) then None
  else firstMatchFrom
         (_matchesWords (list_ascii_of_string (strings.toLowerCase word))
                        target contiguous)
         (nextWord target) (String.length target) (S (String.length target)) 0.

Fixpoint _matchesCamelCase (word : list ascii) (camelCaseWord : string)
    (j : nat) {struct word} : option (list IMatch) :=
  match word with
  | [] => Some []
  | wi :: word' =>
      match String.get j camelCaseWord with
      | None => None
      | Some cj =>
          if negb (Ascii.eqb wi (strings.toLowerCaseChar cj)) then None
          else
            let result := _matchesCamelCase word' camelCaseWord (S j) in
            let result :=
              match result with
              | Some r => Some r
              | None =>
                  firstMatchFrom (_matchesCamelCase word' camelCaseWord)
                    (nextAnchor camelCaseWord) (String.length camelCaseWord)
                    (S (String.length camelCaseWord))
                    (nextAnchor camelCaseWord (S j))
              end in
            option_map (join {| start := j; end_ := S j |}) result
      end
  end.

Definition count (p : ascii -> bool) (s : string) : nat :=
  List.length (List.filter p (list_ascii_of_string s)).

(** The heuristics that skip words and patterns that do not look camel
    cased; the percentages are compared as fractions of the length. *)
Definition isCamelCasePattern (word : string) : bool :=
  if ((count isUpper word =? 0) || (count isLower word =? 0))
     && (count isWhitespace word =? 0)
  then String.length word <=? 30
  else count isUpper word <=? 5.

Definition isCamelCaseWord (word : string) : bool :=
  let len := String.length word in
  (len <? 5 * count isLower word)
  && (5 * count isUpper word <? 4 * len)
  && (3 * len <? 5 * count isAlphanumeric word)
  && (5 * count isNumber word <? len).

Definition isUpperCaseWord (word : string) : bool :=
  (count isLower word =? 0) && (3 * String.length word <? 5 * count isUpper word).

(** Modelled from the spec: [matchesCamelCase] of [vs/base/common/filters]
    (not among the sources), the "camel-case match": the lower-cased word
    is matched from some anchor (an upper-case letter, a digit, or the
    character after a separator) of the camel-cased target, hopping from
    anchor to anchor. *)
Definition matchesCamelCase : IFilter :=
  fun word camelCaseWord =>
    if negb (strings.truthy camelCaseWord) then None
    else if negb (isCamelCasePattern word) then None
    else if 60 <? String.length camelCaseWord then None
    else
      let target :=
        if isCamelCaseWord camelCaseWord then Some camelCaseWord
        else if isUpperCaseWord camelCaseWord
             then Some (strings.toLowerCase camelCaseWord)
             else None in
      match target with
      | None => None
      | Some camelCaseWord =>
          firstMatchFrom
            (_matchesCamelCase (list_ascii_of_string (strings.toLowerCase word))
                               camelCaseWord)
            (nextAnchor camelCaseWord) (String.length camelCaseWord)
            (S (String.length camelCaseWord)) 0
      end.

#[export] Instance model : WordMatchers :=
  {| filters.matchesWords := matchesWords;
     filters.matchesCamelCase := matchesCamelCase |}.

End wordMatchers.

(** ** The external declarations the model reads *)

(** [vs/base/common/platform]. *)
Module platform.
Inductive OperatingSystem : Type := Windows | Macintosh | Linux.
Definition LANGUAGE_DEFAULT : string := "en".
End platform.

(** [vs/nls]: Modelled from the spec: [localize(key, message)] is not among
    the sources; the spec names the two sources Default and User, which are
    the messages of the default language, returned here as they are. *)
Module nls.
Definition localize (key message : string) : string := message.
End nls.

(** [vs/base/common/keyCodes]: the abstract class [ResolvedKeybinding], as
    the values its methods return.  [getParts] gives the first part and the
    chord part, each a resolved keybinding of its own or [null]. *)
Module keyCodes.
#[local] Unset Elimination Schemes.
Inductive ResolvedKeybinding : Type := mkResolvedKeybinding {
  getLabel : string;
  getAriaLabel : string;
  getAriaLabelWithoutModifiers : string;
  hasCtrlModifier : bool;
  hasShiftModifier : bool;
  hasAltModifier : bool;
  hasMetaModifier : bool;
  getParts : option ResolvedKeybinding * option ResolvedKeybinding
}.
#[local] Set Elimination Schemes.
End keyCodes.
Abbreviation ResolvedKeybinding := keyCodes.ResolvedKeybinding.

(** [vs/platform/keybinding/common/keybindingLabels]: the display strings of
    the four modifiers in one label style. *)
Module keybindingLabels.
Record ModifierLabels : Type := {
  ctrlKey : string;
  shiftKey : string;
  altKey : string;
  metaKey : string;
  separator : string
}.

(** Modelled from the spec: the three label providers
    ([UILabelProvider], [AriaLabelProvider], [UserSettingsLabelProvider])
    are not among the sources; the spec describes each as a table, by
    platform, of "display strings for {meta, ctrl, shift, alt}".  These are
    the editor's tables: symbols on macOS and words elsewhere for the UI
    style, long words for the accessibility style, the words of the
    settings file for the user-settings style. *)
Definition UILabelProvider (os : platform.OperatingSystem) : ModifierLabels :=
  match os with
  | platform.Macintosh =>
      {| ctrlKey := "⌃"; shiftKey := "⇧"; altKey := "⌥"; metaKey := "⌘";
         separator := "" |}
  | _ =>
      {| ctrlKey := "Ctrl"; shiftKey := "Shift"; altKey := "Alt";
         metaKey := "Windows"; separator := "+" |}
  end.

Definition AriaLabelProvider (os : platform.OperatingSystem) : ModifierLabels :=
  match os with
  | platform.Macintosh =>
      {| ctrlKey := "Control"; shiftKey := "Shift"; altKey := "Alt";
         metaKey := "Command"; separator := "+" |}
  | _ =>
      {| ctrlKey := "Control"; shiftKey := "Shift"; altKey := "Alt";
         metaKey := "Windows"; separator := "+" |}
  end.

Definition UserSettingsLabelProvider (os : platform.OperatingSystem)
    : ModifierLabels :=
  match os with
  | platform.Macintosh =>
      {| ctrlKey := "ctrl"; shiftKey := "shift"; altKey := "alt";
         metaKey := "cmd"; separator := "+" |}
  | platform.Windows =>
      {| ctrlKey := "ctrl"; shiftKey := "shift"; altKey := "alt";
         metaKey := "win"; separator := "+" |}
  | platform.Linux =>
      {| ctrlKey := "ctrl"; shiftKey := "shift"; altKey := "alt";
         metaKey := "meta"; separator := "+" |}
  end.
End keybindingLabels.
Abbreviation ModLabels := keybindingLabels.ModifierLabels.

(** [vs/platform/keybinding/common/resolvedKeybindingItem]: the fields of
    [ResolvedKeybindingItem] the model reads; [when] is the expression as
    [serialize()] prints it. *)
Module resolvedKeybindingItem.
Record ResolvedKeybindingItem : Type := {
  resolvedKeybinding : option ResolvedKeybinding;
  command : option string;
  when : option string;
  isDefault : bool
}.
End resolvedKeybindingItem.
Abbreviation ResolvedKeybindingItem := resolvedKeybindingItem.ResolvedKeybindingItem.

(** [vs/platform/actions/common/actions] and the editor actions. *)
Module actions.
Record ILocalizedString : Type := { value : string; original : string }.
Record ICommandAction : Type := { title : string + ILocalizedString }.
Record SyncActionDescriptor : Type := { id : string; label : string }.
End actions.

Module editorCommonExtensions.
Record EditorAction : Type := { id : string; label : string }.
End editorCommonExtensions.

(** The collaborators [resolve] consults: the keybinding service, the
    keybinding resolver, the three registries, the display language and the
    locale's string order. *)
Record Services : Type := {
  getKeybindings : list ResolvedKeybindingItem;
  getDefaultKeybindings : list ResolvedKeybindingItem;
  getAllUnboundCommands : gmap string bool -> list string;
  getWorkbenchAction : string -> option actions.SyncActionDescriptor;
  getAlias : string -> string;
  getCommand : string -> option actions.ICommandAction;
  getEditorActions : list editorCommonExtensions.EditorAction;
  language : string;
  localeCompare : string -> string -> Z
}.

(** ** The data model of [keybindingsEditorModel.ts] *)

Definition KEYBINDING_ENTRY_TEMPLATE_ID : string := "keybinding.entry.template".
Definition KEYBINDING_HEADER_TEMPLATE_ID : string := "keybinding.header.template".

(** [KeybindingMatch]: five optional flags; [None] is a flag never set. *)
Record KeybindingMatch : Type := {
  ctrlKey : option bool;
  shiftKey : option bool;
  altKey : option bool;
  metaKey : option bool;
  keyCode : option bool
}.

Record KeybindingMatches : Type := {
  firstPart : KeybindingMatch;
  chordPart : KeybindingMatch
}.

Record IKeybindingItem : Type := {
  keybinding : option ResolvedKeybinding;
  keybindingItem : ResolvedKeybindingItem;
  commandLabel : string;
  commandDefaultLabel : option string;
  command : string;
  source : string;
  when : string
}.

Module IKeybindingItemEntry.
Record t : Type := {
  id : string;
  templateId : string;
  keybindingItem : IKeybindingItem;
  commandIdMatches : option (list filters.IMatch);
  commandLabelMatches : option (list filters.IMatch);
  commandDefaultLabelMatches : option (list filters.IMatch);
  sourceMatches : option (list filters.IMatch);
  whenMatches : option (list filters.IMatch);
  keybindingMatches : option KeybindingMatches
}.
End IKeybindingItemEntry.
Abbreviation IKeybindingItemEntry := IKeybindingItemEntry.t.

(** The three active label styles. *)
Record ModifierLabels : Type := {
  ui : ModLabels;
  aria : ModLabels;
  user : ModLabels
}.

(** JavaScript truth values: an array or an object is true, [null] and
    [undefined] are false; a flag is true only once set to [true]. *)
Definition isSome {A : Type} (o : option A) : bool :=
  match o with Some _ => true | None => false end.

Definition flagSet (o : option bool) : bool :=
  match o with Some b => b | None => false end.


(** ** [class KeybindingItemMatches]: the entry matcher *)

Module KeybindingItemMatches.
Import filters.

(** The six public fields the constructor fills. *)
Record t : Type := {
  commandIdMatches : option (list IMatch);
  commandLabelMatches : option (list IMatch);
  commandDefaultLabelMatches : option (list IMatch);
  sourceMatches : option (list IMatch);
  whenMatches : option (list IMatch);
  keybindingMatches : option KeybindingMatches
}.

(** [a.start + '.' + a.end], the key [filterAndSort] gives to [distinct]. *)
Definition spanKey (a : IMatch) : string :=
  strings.ofNumber (start a) +:+ "." +:+ strings.ofNumber (end_ a).

(** [!(m.start === match.start && m.end === match.end)
     && (m.start <= match.start && m.end >= match.end)] *)
Definition covers (m match_ : IMatch) : bool :=
  negb ((start m =? start match_) && (end_ m =? end_ match_))
  && ((start m <=? start match_) && (end_ match_ <=? end_ m)).

Definition filterAndSort (matches : list IMatch) : list IMatch :=
  arrays.sort (fun a b => (Z.of_nat (start a) - Z.of_nat (start b))%Z)
    (List.filter (fun match_ => negb (existsb (fun m => covers m match_) matches))
       (arrays.distinct matches spanKey)).

(** The loop of [matchesWords]: [matches] is the accumulator, [null] once
    a word has failed (the [break] leaves the remaining words unread). *)
Fixpoint matchesWordsFrom (matches : list IMatch) (words : list string)
    (wordToMatchAgainst : string) (wordMatchesFilter : IFilter)
    : option (list IMatch) :=
  match words with
  | [] => Some matches
  | word :: rest =>
      match wordMatchesFilter word wordToMatchAgainst with
      | Some wordMatches =>
          matchesWordsFrom (matches ++ wordMatches) rest
            wordToMatchAgainst wordMatchesFilter
      | None => None
      end
  end.

Definition matchesWords (words : list string) (wordToMatchAgainst : string)
    (wordMatchesFilter : IFilter) : option (list IMatch) :=
  matchesWordsFrom [] words wordToMatchAgainst wordMatchesFilter.

Definition hasAnyMatch (keybindingMatch : KeybindingMatch) : bool :=
  flagSet (altKey keybindingMatch)
  || flagSet (ctrlKey keybindingMatch)
  || flagSet (metaKey keybindingMatch)
  || flagSet (shiftKey keybindingMatch)
  || flagSet (keyCode keybindingMatch).

Definition matchesKeyCode (keybinding : option ResolvedKeybinding)
    (word : string) : bool :=
  match keybinding with
  | None => false
  | Some keybinding =>
      let ariaLabel := keyCodes.getAriaLabelWithoutModifiers keybinding in
      if (String.length ariaLabel =? 1) || (String.length word =? 1)
      then (strings.compareIgnoreCase ariaLabel word =? 0)%Z
      else isSome (matchesContiguousSubString word ariaLabel)
  end.

Section WithModifierLabels.
Context (modifierLabels : ModifierLabels).

Definition matchesMetaModifier (keybinding : option ResolvedKeybinding)
    (word : string) : bool :=
  match keybinding with
  | None => false
  | Some keybinding =>
      if negb (keyCodes.hasMetaModifier keybinding) then false
      else if isSome (matchesPrefix (keybindingLabels.metaKey (ui modifierLabels)) word)
      then true
      else if isSome (matchesPrefix (keybindingLabels.metaKey (aria modifierLabels)) word)
      then true
      else if isSome (matchesPrefix (keybindingLabels.metaKey (user modifierLabels)) word)
      then true
      else false
  end.

Definition matchesCtrlModifier (keybinding : option ResolvedKeybinding)
    (word : string) : bool :=
  match keybinding with
  | None => false
  | Some keybinding =>
      if negb (keyCodes.hasCtrlModifier keybinding) then false
      else if isSome (matchesPrefix (keybindingLabels.ctrlKey (ui modifierLabels)) word)
      then true
      else if isSome (matchesPrefix (keybindingLabels.ctrlKey (aria modifierLabels)) word)
      then true
      else if isSome (matchesPrefix (keybindingLabels.ctrlKey (user modifierLabels)) word)
      then true
      else false
  end.

Definition matchesShiftModifier (keybinding : option ResolvedKeybinding)
    (word : string) : bool :=
  match keybinding with
  | None => false
  | Some keybinding =>
      if negb (keyCodes.hasShiftModifier keybinding) then false
      else if isSome (matchesPrefix (keybindingLabels.shiftKey (ui modifierLabels)) word)
      then true
      else if isSome (matchesPrefix (keybindingLabels.shiftKey (aria modifierLabels)) word)
      then true
      else if isSome (matchesPrefix (keybindingLabels.shiftKey (user modifierLabels)) word)
      then true
      else false
  end.

Definition matchesAltModifier (keybinding : option ResolvedKeybinding)
    (word : string) : bool :=
  match keybinding with
  | None => false
  | Some keybinding =>
      if negb (keyCodes.hasAltModifier keybinding) then false
      else if isSome (matchesPrefix (keybindingLabels.altKey (ui modifierLabels)) word)
      then true
      else if isSome (matchesPrefix (keybindingLabels.altKey (aria modifierLabels)) word)
      then true
      else if isSome (matchesPrefix (keybindingLabels.altKey (user modifierLabels)) word)
      then true
      else false
  end.

(** [matchPart(part, match, word)]: the flags are written into [match],
    which is returned with the result. *)
Definition matchPart (part : option ResolvedKeybinding)
    (match_ : KeybindingMatch) (word : string) : bool * KeybindingMatch :=
  let matched := false in
  let '(matched, match_) :=
    if matchesMetaModifier part word
    then (true, {| metaKey := Some true; ctrlKey := ctrlKey match_;
                   shiftKey := shiftKey match_; altKey := altKey match_;
                   keyCode := keyCode match_ |})
    else (matched, match_) in
  let '(matched, match_) :=
    if matchesCtrlModifier part word
    then (true, {| ctrlKey := Some true; metaKey := metaKey match_;
                   shiftKey := shiftKey match_; altKey := altKey match_;
                   keyCode := keyCode match_ |})
    else (matched, match_) in
  let '(matched, match_) :=
    if matchesShiftModifier part word
    then (true, {| shiftKey := Some true; metaKey := metaKey match_;
                   ctrlKey := ctrlKey match_; altKey := altKey match_;
                   keyCode := keyCode match_ |})
    else (matched, match_) in
  let '(matched, match_) :=
    if matchesAltModifier part word
    then (true, {| altKey := Some true; metaKey := metaKey match_;
                   ctrlKey := ctrlKey match_; shiftKey := shiftKey match_;
                   keyCode := keyCode match_ |})
    else (matched, match_) in
  let '(matched, match_) :=
    if matchesKeyCode part word
    then (true, {| keyCode := Some true; metaKey := metaKey match_;
                   ctrlKey := ctrlKey match_; shiftKey := shiftKey match_;
                   altKey := altKey match_ |})
    else (matched, match_) in
  (matched, match_).

(** The empty object [{}] and the full match of the fast path. *)
Definition noFlags : KeybindingMatch :=
  {| ctrlKey := None; shiftKey := None; altKey := None;
     metaKey := None; keyCode := None |}.

Definition allFlags : KeybindingMatch :=
  {| metaKey := Some true; altKey := Some true; shiftKey := Some true;
     ctrlKey := Some true; keyCode := Some true |}.

(** One turn of the loop over [words] in [matchesKeybinding]. *)
Definition matchWord (firstPart chordPart : option ResolvedKeybinding)
    (state : list string * KeybindingMatch * KeybindingMatch) (word : string)
    : list string * KeybindingMatch * KeybindingMatch :=
  let '(matchedWords, firstPartMatch, chordPartMatch) := state in
  let '(firstPartMatched, firstPartMatch) := matchPart firstPart firstPartMatch word in
  let '(chordPartMatched, chordPartMatch) := matchPart chordPart chordPartMatch word in
  (if firstPartMatched || chordPartMatched
   then matchedWords ++ [word] else matchedWords,
   firstPartMatch, chordPartMatch).

Definition matchesKeybinding (keybinding : ResolvedKeybinding)
    (searchValue : string) (words : list string) : option KeybindingMatches :=
  if (strings.compareIgnoreCase searchValue (keyCodes.getAriaLabel keybinding) =? 0)%Z
     || (strings.compareIgnoreCase searchValue (keyCodes.getLabel keybinding) =? 0)%Z
  then Some {| firstPart := allFlags; chordPart := allFlags |}
  else
    let '(firstPart, chordPart) := keyCodes.getParts keybinding in
    let '(matchedWords, firstPartMatch, chordPartMatch) :=
      fold_left (matchWord firstPart chordPart) words ([], noFlags, noFlags) in
    if negb (List.length matchedWords =? List.length words) then None
    else if hasAnyMatch firstPartMatch || hasAnyMatch chordPartMatch
         then Some {| firstPart := firstPartMatch; chordPart := chordPartMatch |}
         else None.

Context `{WordMatchers}.

(** [const wordFilter = or(matchesPrefix, matchesWords, matchesContiguousSubString)] *)
Definition wordFilter : IFilter :=
  or [matchesPrefix;
      (fun word target => filters.matchesWords word target false);
      matchesContiguousSubString].

Definition matches (searchValue wordToMatchAgainst : string)
    (wordMatchesFilter : IFilter) (words : list string) : option (list IMatch) :=
  let matches := wordFilter searchValue wordToMatchAgainst in
  let matches :=
    match matches with
    | Some m => Some m
    | None => matchesWords words wordToMatchAgainst wordMatchesFilter
    end in
  match matches with
  | Some m => Some (filterAndSort m)
  | None => None
  end.

(** The constructor. *)
Definition new (keybindingItem : IKeybindingItem) (searchValue : string)
    (words keybindingWords : list string) : t :=
  let wordsOrCamelCase : IFilter :=
    or [(fun word target => filters.matchesWords word target false);
        filters.matchesCamelCase] in
  {| commandIdMatches :=
       matches searchValue (command keybindingItem) wordsOrCamelCase words;
     commandLabelMatches :=
       if strings.truthy (commandLabel keybindingItem)
       then matches searchValue (commandLabel keybindingItem)
              (fun word wordToMatchAgainst =>
                 filters.matchesWords word (commandLabel keybindingItem) true)
              words
       else None;
     commandDefaultLabelMatches :=
       match commandDefaultLabel keybindingItem with
       | Some defaultLabel =>
           if strings.truthy defaultLabel
           then matches searchValue defaultLabel
                  (fun word wordToMatchAgainst =>
                     filters.matchesWords word defaultLabel true)
                  words
           else None
       | None => None
       end;
     sourceMatches :=
       matches searchValue (source keybindingItem)
         (fun word wordToMatchAgainst =>
            filters.matchesWords word (source keybindingItem) true)
         words;
     whenMatches :=
       if strings.truthy (when keybindingItem)
       then matches searchValue (when keybindingItem) wordsOrCamelCase words
       else None;
     keybindingMatches :=
       match keybinding keybindingItem with
       | Some kb => matchesKeybinding kb searchValue keybindingWords
       | None => None
       end |}.

End WithModifierLabels.

End KeybindingItemMatches.

(** ** [class KeybindingsEditorModel]: the collection model *)

Module KeybindingsEditorModel.

(** The state of an instance: the label styles chosen by the constructor
    and the snapshot [_keybindingItems]. *)
Record t : Type := {
  modifierLabels : ModifierLabels;
  _keybindingItems : list IKeybindingItem
}.

(** The constructor: the label styles of the running platform; the
    snapshot is filled by [resolve]. *)
Definition new (os : platform.OperatingSystem) : t :=
  {| modifierLabels :=
       {| ui := keybindingLabels.UILabelProvider os;
          aria := keybindingLabels.AriaLabelProvider os;
          user := keybindingLabels.UserSettingsLabelProvider os |};
     _keybindingItems := [] |}.

Definition getId (keybindingItem : IKeybindingItem) : string :=
  command keybindingItem
  +:+ match keybinding keybindingItem with
      | Some kb => keyCodes.getAriaLabel kb
      | None => ""
      end
  +:+ source keybindingItem
  +:+ when keybindingItem.

Section Fetch.
Context `{filters.WordMatchers}.

(** The body of the loop of [fetchKeybindingItems]: [result.push(...)]
    when one of the six fields is set. *)
Definition fetchStep (labels : ModifierLabels) (searchValue : string)
    (words keybindingWords : list string)
    (result : list IKeybindingItemEntry) (keybindingItem : IKeybindingItem)
    : list IKeybindingItemEntry :=
  let keybindingMatches :=
    KeybindingItemMatches.new labels keybindingItem searchValue words keybindingWords in
  if isSome (KeybindingItemMatches.commandIdMatches keybindingMatches)
     || isSome (KeybindingItemMatches.commandLabelMatches keybindingMatches)
     || isSome (KeybindingItemMatches.commandDefaultLabelMatches keybindingMatches)
     || isSome (KeybindingItemMatches.sourceMatches keybindingMatches)
     || isSome (KeybindingItemMatches.whenMatches keybindingMatches)
     || isSome (KeybindingItemMatches.keybindingMatches keybindingMatches)
  then result ++
       [ {| IKeybindingItemEntry.id := getId keybindingItem;
            IKeybindingItemEntry.templateId := KEYBINDING_ENTRY_TEMPLATE_ID;
            IKeybindingItemEntry.commandLabelMatches :=
              KeybindingItemMatches.commandLabelMatches keybindingMatches;
            IKeybindingItemEntry.commandDefaultLabelMatches :=
              KeybindingItemMatches.commandDefaultLabelMatches keybindingMatches;
            IKeybindingItemEntry.keybindingItem := keybindingItem;
            IKeybindingItemEntry.keybindingMatches :=
              KeybindingItemMatches.keybindingMatches keybindingMatches;
            IKeybindingItemEntry.commandIdMatches :=
              KeybindingItemMatches.commandIdMatches keybindingMatches;
            IKeybindingItemEntry.sourceMatches :=
              KeybindingItemMatches.sourceMatches keybindingMatches;
            IKeybindingItemEntry.whenMatches :=
              KeybindingItemMatches.whenMatches keybindingMatches |} ]
  else result.

(** [searchValue.indexOf('+') !== -1 ? searchValue.split('+') : words] *)
Definition keybindingWordsOf (searchValue : string) : list string :=
  if isSome (strings.indexOf searchValue "+")
  then strings.split "+" searchValue
  else strings.split " " searchValue.

Definition fetchKeybindingItems (this : t) (searchValue : string)
    : list IKeybindingItemEntry :=
  let words := strings.split " " searchValue in
  let keybindingWords := keybindingWordsOf searchValue in
  fold_left (fetchStep (modifierLabels this) searchValue words keybindingWords)
    (_keybindingItems this) [].

Definition fetch (this : t) (searchValue : string) : list IKeybindingItemEntry :=
  let searchValue := strings.trim searchValue in
  if strings.truthy searchValue then fetchKeybindingItems this searchValue
  else
    map (fun keybindingItem =>
           {| IKeybindingItemEntry.id := getId keybindingItem;
              IKeybindingItemEntry.keybindingItem := keybindingItem;
              IKeybindingItemEntry.templateId := KEYBINDING_ENTRY_TEMPLATE_ID;
              IKeybindingItemEntry.commandIdMatches := None;
              IKeybindingItemEntry.commandLabelMatches := None;
              IKeybindingItemEntry.commandDefaultLabelMatches := None;
              IKeybindingItemEntry.sourceMatches := None;
              IKeybindingItemEntry.whenMatches := None;
              IKeybindingItemEntry.keybindingMatches := None |})
        (_keybindingItems this).
End Fetch.

Definition compareKeybindingData (localeCompare : string -> string -> Z)
    (a b : IKeybindingItem) : Z :=
  if isSome (keybinding a) && negb (isSome (keybinding b)) then (-1)%Z
  else if isSome (keybinding b) && negb (isSome (keybinding a)) then 1%Z
  else if strings.truthy (commandLabel a) && negb (strings.truthy (commandLabel b)) then (-1)%Z
  else if strings.truthy (commandLabel b) && negb (strings.truthy (commandLabel a)) then 1%Z
  else if strings.truthy (commandLabel a) && strings.truthy (commandLabel b)
          && negb (String.eqb (commandLabel a) (commandLabel b))
       then localeCompare (commandLabel a) (commandLabel b)
  else if String.eqb (command a) (command b)
       then if resolvedKeybindingItem.isDefault (keybindingItem a) then 1%Z else (-1)%Z
  else localeCompare (command a) (command b).

Section Resolve.
Context (services : Services).

Definition getCommandDefaultLabel
    (workbenchAction : option actions.SyncActionDescriptor)
    (menuCommand : option actions.ICommandAction) : option string :=
  if negb (String.eqb (language services) platform.LANGUAGE_DEFAULT)
  then match workbenchAction with
       | Some workbenchAction =>
           Some (getAlias services (actions.id workbenchAction))
       | None =>
           match menuCommand with
           | Some {| actions.title := inr localized |} =>
               if strings.truthy (actions.original localized)
               then Some (actions.original localized) else None
           | _ => None
           end
       end
  else None.

Definition getCommandLabel
    (workbenchAction : option actions.SyncActionDescriptor)
    (menuCommand : option actions.ICommandAction)
    (editorAction : option editorCommonExtensions.EditorAction) : string :=
  match workbenchAction with
  | Some workbenchAction => actions.label workbenchAction
  | None =>
      match menuCommand with
      | Some menuCommand =>
          match actions.title menuCommand with
          | inl title => title
          | inr localized => actions.value localized
          end
      | None =>
          match editorAction with
          | Some editorAction => editorCommonExtensions.label editorAction
          | None => ""
          end
      end
  end.

Definition toKeybindingEntry (command : string)
    (keybindingItem : ResolvedKeybindingItem)
    (editorActions : gmap string editorCommonExtensions.EditorAction)
    : IKeybindingItem :=
  let workbenchAction := getWorkbenchAction services command in
  let menuCommand := getCommand services command in
  let editorAction := editorActions !! command in
  {| keybinding := resolvedKeybindingItem.resolvedKeybinding keybindingItem;
     keybindingItem := keybindingItem;
     command := command;
     commandLabel := getCommandLabel workbenchAction menuCommand editorAction;
     commandDefaultLabel := getCommandDefaultLabel workbenchAction menuCommand;
     when := match resolvedKeybindingItem.when keybindingItem with
             | Some expr => expr
             | None => ""
             end;
     source := if resolvedKeybindingItem.isDefault keybindingItem
               then nls.localize "default" "Default"
               else nls.localize "user" "User" |}.

(** The first loop of [resolve]: one entry per keybinding with a command,
    and the command recorded as bound. *)
Definition addBound (editorActions : gmap string editorCommonExtensions.EditorAction)
    (state : list IKeybindingItem * gmap string bool)
    (keybinding : ResolvedKeybindingItem)
    : list IKeybindingItem * gmap string bool :=
  let '(items, boundCommands) := state in
  match resolvedKeybindingItem.command keybinding with
  | Some command =>
      if strings.truthy command
      then (items ++ [toKeybindingEntry command keybinding editorActions],
            <[ command := true ]> boundCommands)
      else state
  | None => state
  end.

(** The second loop: one entry without key combination per unbound
    command. *)
Definition addUnbound (editorActions : gmap string editorCommonExtensions.EditorAction)
    (commandsWithDefaultKeybindings : list (option string))
    (items : list IKeybindingItem) (command : string) : list IKeybindingItem :=
  let keybindingItem : ResolvedKeybindingItem :=
    {| resolvedKeybindingItem.resolvedKeybinding := None;
       resolvedKeybindingItem.command := Some command;
       resolvedKeybindingItem.when := None;
       resolvedKeybindingItem.isDefault :=
         negb (existsb (fun c => bool_decide (c = Some command))
                       commandsWithDefaultKeybindings) |} in
  items ++ [toKeybindingEntry command keybindingItem editorActions].

(** [editorActions], the object built by [reduce]. *)
Definition editorActionsOf : gmap string editorCommonExtensions.EditorAction :=
  fold_left (fun editorActions editorAction =>
               <[ editorCommonExtensions.id editorAction := editorAction ]> editorActions)
            (getEditorActions services)
            (∅ : gmap string editorCommonExtensions.EditorAction).

(** The entries and [boundCommands] after the first loop. *)
Definition bound : list IKeybindingItem * gmap string bool :=
  fold_left (addBound editorActionsOf) (getKeybindings services)
            ([], (∅ : gmap string bool)).

Definition commandsWithDefaultKeybindings : list (option string) :=
  map resolvedKeybindingItem.command (getDefaultKeybindings services).

(** The list before the final sort. *)
Definition collect : list IKeybindingItem :=
  let '(items, boundCommands) := bound in
  fold_left (addUnbound editorActionsOf commandsWithDefaultKeybindings)
            (getAllUnboundCommands services boundCommands) items.

Definition resolve (this : t) : t :=
  {| modifierLabels := modifierLabels this;
     _keybindingItems :=
       arrays.sort (compareKeybindingData (localeCompare services)) collect |}.
End Resolve.

End KeybindingsEditorModel.

(** ** Worked data: key combinations and the one-entry snapshot *)

Module examples.

(** A key combination of one part: [getParts] is the pair of the part and
    [null].  The part answers the same questions as the combination; its
    own [getParts] is never read by the matcher. *)
Definition simple (label ariaLabel key : string) (ctrl shift alt meta : bool)
    : ResolvedKeybinding :=
  let part :=
    keyCodes.mkResolvedKeybinding label ariaLabel key ctrl shift alt meta
      (None, None) in
  keyCodes.mkResolvedKeybinding label ariaLabel key ctrl shift alt meta
    (Some part, None).

(** A chord: the labels of both parts, separated by a space.  The matcher
    reads the modifiers and the key only from the two parts. *)
Definition chord (first second : ResolvedKeybinding) : ResolvedKeybinding :=
  keyCodes.mkResolvedKeybinding
    (keyCodes.getLabel first +:+ " " +:+ keyCodes.getLabel second)
    (keyCodes.getAriaLabel first +:+ " " +:+ keyCodes.getAriaLabel second)
    "" false false false false
    (fst (keyCodes.getParts first), fst (keyCodes.getParts second)).

(** ctrl+z, ctrl+x, ctrl+k, ctrl+c and ctrl+Escape as labelled on Windows
    and Linux, and ctrl+z as labelled on macOS. *)
Definition ctrlZ : ResolvedKeybinding :=
  simple "Ctrl+Z" "Control+Z" "Z" true false false false.
Definition ctrlX : ResolvedKeybinding :=
  simple "Ctrl+X" "Control+X" "X" true false false false.
Definition ctrlK : ResolvedKeybinding :=
  simple "Ctrl+K" "Control+K" "K" true false false false.
Definition ctrlC : ResolvedKeybinding :=
  simple "Ctrl+C" "Control+C" "C" true false false false.
Definition ctrlEscape : ResolvedKeybinding :=
  simple "Ctrl+Escape" "Control+Escape" "Escape" true false false false.
Definition ctrlZMac : ResolvedKeybinding :=
  simple "⌃Z" "Control+Z" "Z" true false false false.
Definition ctrlK_ctrlC : ResolvedKeybinding := chord ctrlK ctrlC.

(** The entry of the spec's example:
    [{command: "editor.action.undo", keyCombination: ctrl+z, label: "Undo",
      source: Default}]. *)
Definition undo (keyCombination : ResolvedKeybinding) : IKeybindingItem :=
  {| keybinding := Some keyCombination;
     keybindingItem :=
       {| resolvedKeybindingItem.resolvedKeybinding := Some keyCombination;
          resolvedKeybindingItem.command := Some "editor.action.undo";
          resolvedKeybindingItem.when := None;
          resolvedKeybindingItem.isDefault := true |};
     commandLabel := "Undo";
     commandDefaultLabel := None;
     command := "editor.action.undo";
     source := "Default";
     when := "" |}.

(** An entry given by its key combination, label, command and source. *)
Definition entry (keyCombination : option ResolvedKeybinding)
    (label command : string) (isDefault : bool) : IKeybindingItem :=
  {| keybinding := keyCombination;
     keybindingItem :=
       {| resolvedKeybindingItem.resolvedKeybinding := keyCombination;
          resolvedKeybindingItem.command := Some command;
          resolvedKeybindingItem.when := None;
          resolvedKeybindingItem.isDefault := isDefault |};
     commandLabel := label;
     commandDefaultLabel := None;
     command := command;
     source := if isDefault then "Default" else "User";
     when := "" |}.

(** The label styles the constructor selects on a platform. *)
Definition labels (os : platform.OperatingSystem) : ModifierLabels :=
  KeybindingsEditorModel.modifierLabels (KeybindingsEditorModel.new os).

Definition model (os : platform.OperatingSystem)
    (keyCombination : ResolvedKeybinding) : KeybindingsEditorModel.t :=
  {| KeybindingsEditorModel.modifierLabels := labels os;
     KeybindingsEditorModel._keybindingItems := [undo keyCombination] |}.

(** [fetch] with the modelled word matchers. *)
Definition search (os : platform.OperatingSystem)
    (keyCombination : ResolvedKeybinding) (query : string)
    : list IKeybindingItemEntry :=
  @KeybindingsEditorModel.fetch wordMatchers.model (model os keyCombination) query.

End examples.

(** ** Worked data: collaborators for a rebuild *)

Module rebuildExample.

(** One current keybinding (ctrl+z for undo, a default one), one keybinding
    without command, one unbound command (redo), menu titles for both
    commands, and the default display language. *)
Definition undoBinding : ResolvedKeybindingItem :=
  {| resolvedKeybindingItem.resolvedKeybinding := Some examples.ctrlZ;
     resolvedKeybindingItem.command := Some "editor.action.undo";
     resolvedKeybindingItem.when := Some "editorTextFocus";
     resolvedKeybindingItem.isDefault := true |}.

Definition noCommand : ResolvedKeybindingItem :=
  {| resolvedKeybindingItem.resolvedKeybinding := Some examples.ctrlX;
     resolvedKeybindingItem.command := None;
     resolvedKeybindingItem.when := None;
     resolvedKeybindingItem.isDefault := true |}.

Definition services : Services :=
  {| getKeybindings := [undoBinding; noCommand];
     getDefaultKeybindings := [undoBinding; noCommand];
     getAllUnboundCommands := fun _ => ["editor.action.redo"];
     getWorkbenchAction := fun _ => None;
     getAlias := fun id => id;
     getCommand := fun command =>
       Some {| actions.title :=
                 inr {| actions.value :=
                          if String.eqb command "editor.action.undo"
                          then "Undo" else "Redo";
                        actions.original := "Original" |} |};
     getEditorActions := [];
     language := "en";
     localeCompare := strings.compareIgnoreCase |}.

End rebuildExample.

(** ** Vocabulary of the specification *)

(** "case-insensitively equals". *)
Definition equalIgnoringCase (a b : string) : Prop :=
  strings.toLowerCase a = strings.toLowerCase b.

(** "[p] is a prefix of [s], ignoring case". *)
Definition prefixIgnoringCase (p s : string) : Prop :=
  exists rest, strings.toLowerCase s = strings.toLowerCase p +:+ rest.

(** "[w] occurs in [s] as a contiguous substring, ignoring case". *)
Definition occursIgnoringCase (w s : string) : Prop :=
  exists before after,
    strings.toLowerCase s = before +:+ strings.toLowerCase w +:+ after.

(** "another, value-distinct span of [spans] covers [x]". *)
Definition covered (spans : list filters.IMatch) (x : filters.IMatch) : Prop :=
  exists m, In m spans /\ m <> x
            /\ filters.start m <= filters.start x
            /\ filters.end_ x <= filters.end_ m.

(** The six match fields of a search result, and the test "at least one of
    the six is non-null". *)
Definition annotations (e : IKeybindingItemEntry) : KeybindingItemMatches.t :=
  {| KeybindingItemMatches.commandIdMatches := IKeybindingItemEntry.commandIdMatches e;
     KeybindingItemMatches.commandLabelMatches := IKeybindingItemEntry.commandLabelMatches e;
     KeybindingItemMatches.commandDefaultLabelMatches :=
       IKeybindingItemEntry.commandDefaultLabelMatches e;
     KeybindingItemMatches.sourceMatches := IKeybindingItemEntry.sourceMatches e;
     KeybindingItemMatches.whenMatches := IKeybindingItemEntry.whenMatches e;
     KeybindingItemMatches.keybindingMatches := IKeybindingItemEntry.keybindingMatches e |}.

Definition anyFieldMatches (m : KeybindingItemMatches.t) : bool :=
  isSome (KeybindingItemMatches.commandIdMatches m)
  || isSome (KeybindingItemMatches.commandLabelMatches m)
  || isSome (KeybindingItemMatches.commandDefaultLabelMatches m)
  || isSome (KeybindingItemMatches.sourceMatches m)
  || isSome (KeybindingItemMatches.whenMatches m)
  || isSome (KeybindingItemMatches.keybindingMatches m).

Definition noFieldMatches : KeybindingItemMatches.t :=
  {| KeybindingItemMatches.commandIdMatches := None;
     KeybindingItemMatches.commandLabelMatches := None;
     KeybindingItemMatches.commandDefaultLabelMatches := None;
     KeybindingItemMatches.sourceMatches := None;
     KeybindingItemMatches.whenMatches := None;
     KeybindingItemMatches.keybindingMatches := None |}.

(** The entry matcher run on one stored entry for a trimmed query. *)
Definition matchEntry `{filters.WordMatchers} (labels : ModifierLabels)
    (query : string) (entry : IKeybindingItem) : KeybindingItemMatches.t :=
  KeybindingItemMatches.new labels entry query
    (strings.split " " query) (KeybindingsEditorModel.keybindingWordsOf query).

(** "the word matches the part on one of the five flags". *)
Definition wordMatchesPart (labels : ModifierLabels)
    (part : option ResolvedKeybinding) (word : string) : bool :=
  KeybindingItemMatches.matchesMetaModifier labels part word
  || KeybindingItemMatches.matchesCtrlModifier labels part word
  || KeybindingItemMatches.matchesShiftModifier labels part word
  || KeybindingItemMatches.matchesAltModifier labels part word
  || KeybindingItemMatches.matchesKeyCode part word.

(** The flags a key match has set, as a list of five booleans in the order
    meta, ctrl, shift, alt, keyCode. *)
Definition flagsOf (m : KeybindingMatch) : list bool :=
  [flagSet (metaKey m); flagSet (ctrlKey m); flagSet (shiftKey m);
   flagSet (altKey m); flagSet (keyCode m)].

(** "the character [c] occurs in [s]". *)
Fixpoint hasChar (c : ascii) (s : string) : bool :=
  match s with
  | EmptyString => false
  | String d r => Ascii.eqb d c || hasChar c r
  end.

(** The five flags of a key match, the flag read from a match, and the
    check that sets it. *)
Inductive Flag : Type := Meta | Ctrl | Shift | Alt | KeyCode.

Definition flagOf (flag : Flag) (m : KeybindingMatch) : bool :=
  match flag with
  | Meta => flagSet (metaKey m)
  | Ctrl => flagSet (ctrlKey m)
  | Shift => flagSet (shiftKey m)
  | Alt => flagSet (altKey m)
  | KeyCode => flagSet (keyCode m)
  end.

Definition checkOf (flag : Flag) (labels : ModifierLabels)
    (part : option ResolvedKeybinding) (word : string) : bool :=
  match flag with
  | Meta => KeybindingItemMatches.matchesMetaModifier labels part word
  | Ctrl => KeybindingItemMatches.matchesCtrlModifier labels part word
  | Shift => KeybindingItemMatches.matchesShiftModifier labels part word
  | Alt => KeybindingItemMatches.matchesAltModifier labels part word
  | KeyCode => KeybindingItemMatches.matchesKeyCode part word
  end.

(** "the keybinding has a command" ([if (keybinding.command)]). *)
Definition hasCommand (keybinding : ResolvedKeybindingItem) : bool :=
  match resolvedKeybindingItem.command keybinding with
  | Some command => strings.truthy command
  | None => false
  end.

(** "the query takes the fast path of [matchesKeybinding]". *)
Definition isFullLabel (keybinding : ResolvedKeybinding) (query : string) : Prop :=
  equalIgnoringCase query (keyCodes.getAriaLabel keybinding)
  \/ equalIgnoringCase query (keyCodes.getLabel keybinding).

(** * Properties *)

(** Case analysis on the condition of the first conditional of the goal. *)
Ltac case_if :=
  match goal with
  | |- context [if ?b then _ else _] => destruct b eqn:?
  end.

(** ** Strings *)

Lemma toLowerCase_length s :
  String.length (strings.toLowerCase s) = String.length s.
Proof. induction s as [|c s IH]; simpl; congruence. Qed.

Lemma append_length s1 s2 :
  String.length (s1 +:+ s2) = String.length s1 + String.length s2.
Proof. induction s1 as [|c s1 IH]; simpl; [reflexivity | congruence]. Qed.

Lemma toLowerCaseChar_code_eq c d :
  Z.of_nat (nat_of_ascii c) = Z.of_nat (nat_of_ascii d) -> c = d.
Proof.
  intros E. apply Nat2Z.inj in E.
  rewrite <- (ascii_nat_embedding c), <- (ascii_nat_embedding d).
  now rewrite E.
Qed.

Lemma compareIgnoreCase_zero a b :
  strings.compareIgnoreCase a b = 0%Z <-> equalIgnoringCase a b.
Proof.
  unfold equalIgnoringCase. revert b.
  induction a as [|ca a IH]; intros [|cb b]; simpl; try (split; congruence).
  destruct (Ascii.eqb ca cb) eqn:E.
  - apply Ascii.eqb_eq in E. subst cb. rewrite IH. split; intros E.
    + now rewrite E.
    + now injection E.
  - set (la := strings.toLowerCaseChar ca).
    set (lb := strings.toLowerCaseChar cb).
    destruct (Z.eqb_spec (Z.of_nat (nat_of_ascii la) - Z.of_nat (nat_of_ascii lb)) 0)
      as [D|D].
    + assert (la = lb) as L by (apply toLowerCaseChar_code_eq; lia).
      rewrite IH, L. split; intros E'.
      * now rewrite E'.
      * now injection E'.
    + assert (la <> lb) as L by (intros L; rewrite L in D; lia).
      split.
      * intros R. exfalso.
        destruct (strings.isLowerAsciiLetter la && strings.isLowerAsciiLetter lb).
        -- contradiction.
        -- destruct (_ <? 0)%Z; discriminate.
      * intros R. injection R as R _. contradiction.
Qed.

Lemma doEqualsIgnoreCase_prefix candidate : forall str,
  strings.doEqualsIgnoreCase str candidate (String.length candidate) = true
  <-> prefixIgnoringCase candidate str.
Proof.
  unfold prefixIgnoringCase.
  induction candidate as [|c candidate IH]; intros str; simpl.
  - split; [intros _; now exists (strings.toLowerCase str) | reflexivity].
  - destruct str as [|s str]; simpl.
    + split; [discriminate | intros [rest R]; discriminate].
    + rewrite andb_true_iff, IH, Ascii.eqb_eq. split.
      * intros [E [rest R]]. exists rest. now rewrite E, R.
      * intros [rest R]. injection R as E R. split; [easy | now exists rest].
Qed.

Lemma prefixIgnoringCase_length p s :
  prefixIgnoringCase p s -> String.length p <= String.length s.
Proof.
  intros [rest R].
  rewrite <- (toLowerCase_length s), R, append_length, toLowerCase_length.
  lia.
Qed.

Lemma beginsWithIgnoreCase_prefix str candidate :
  strings.beginsWithIgnoreCase str candidate = true
  <-> prefixIgnoringCase candidate str.
Proof.
  unfold strings.beginsWithIgnoreCase.
  destruct (Nat.ltb_spec (String.length str) (String.length candidate)) as [L|L].
  - split; [discriminate|].
    intros P. apply prefixIgnoringCase_length in P. lia.
  - apply doEqualsIgnoreCase_prefix.
Qed.

Lemma truthy_nonempty s : strings.truthy s = true <-> s <> "".
Proof.
  unfold strings.truthy. rewrite negb_true_iff.
  destruct (String.eqb_spec s ""); split; congruence.
Qed.

(** The prefix filter matches exactly when the text is not empty and begins
    with the word, ignoring case. *)
Lemma matchesPrefix_isSome word wordToMatchAgainst :
  isSome (filters.matchesPrefix word wordToMatchAgainst) = true
  <-> wordToMatchAgainst <> "" /\ prefixIgnoringCase word wordToMatchAgainst.
Proof.
  unfold filters.matchesPrefix.
  destruct (strings.truthy wordToMatchAgainst) eqn:T; simpl.
  - apply truthy_nonempty in T.
    destruct (Nat.ltb_spec (String.length wordToMatchAgainst) (String.length word))
      as [L|L]; simpl.
    + split; [discriminate|]. intros [_ P].
      apply prefixIgnoringCase_length in P. lia.
    + destruct (strings.beginsWithIgnoreCase wordToMatchAgainst word) eqn:B; simpl.
      * apply beginsWithIgnoreCase_prefix in B. easy.
      * split; [discriminate|]. intros [_ P].
        apply beginsWithIgnoreCase_prefix in P. congruence.
  - split; [discriminate|]. intros [N _].
    apply truthy_nonempty in N. congruence.
Qed.

Lemma prefix_append w : forall s,
  String.prefix w s = true <-> exists after, s = w +:+ after.
Proof.
  induction w as [|a w IH]; intros s.
  - split; [intros _; now exists s | now destruct s].
  - destruct s as [|b s]; simpl.
    + split; [discriminate | intros [after E]; discriminate].
    + destruct (ascii_dec a b) as [->|N].
      * rewrite IH. split; intros [after E]; exists after.
        -- now rewrite E.
        -- now injection E.
      * split; [discriminate | intros [after E]; injection E; congruence].
Qed.

Lemma append_empty s1 s2 : s1 +:+ s2 = "" -> s1 = "" /\ s2 = "".
Proof. destruct s1; [intros E; split; [reflexivity | exact E] | discriminate]. Qed.

(** [indexOf] finds the word exactly when it occurs in the text. *)
Lemma indexOf_isSome w : forall s,
  isSome (strings.indexOf s w) = true
  <-> exists before after, s = before +:+ w +:+ after.
Proof.
  unfold strings.indexOf.
  induction s as [|c s IH].
  - simpl. destruct w as [|a w]; simpl.
    + split; [intros _; now exists "", "" | reflexivity].
    + split; [discriminate|]. intros (before & after & E).
      symmetry in E. apply append_empty in E as [_ E]. discriminate.
  - change (String.index 0 w (String c s))
      with (if String.prefix w (String c s) then Some 0
            else match String.index 0 w s with
                 | Some n => Some (S n)
                 | None => None
                 end).
    destruct (String.prefix w (String c s)) eqn:P.
    + apply prefix_append in P as [after E].
      split; [intros _; now exists "", after | reflexivity].
    + split.
      * intros F.
        destruct (String.index 0 w s) eqn:I; [|discriminate].
        destruct (proj1 IH eq_refl) as (before & after & E).
        exists (String c before), after. now rewrite E.
      * intros (before & after & E).
        destruct before as [|b before].
        -- assert (String.prefix w (String c s) = true) as P'
             by (apply prefix_append; now exists after).
           congruence.
        -- injection E as _ E.
           assert (isSome (String.index 0 w s) = true) as I
             by (apply IH; now exists before, after).
           now destruct (String.index 0 w s).
Qed.

(** The substring filter matches exactly when the word occurs in the text,
    ignoring case; the empty word occurs in every text. *)
Lemma matchesContiguousSubString_isSome word wordToMatchAgainst :
  isSome (filters.matchesContiguousSubString word wordToMatchAgainst) = true
  <-> occursIgnoringCase word wordToMatchAgainst.
Proof.
  unfold filters.matchesContiguousSubString, occursIgnoringCase.
  rewrite <- indexOf_isSome.
  now destruct (strings.indexOf _ _).
Qed.

Lemma occursIgnoringCase_empty s : occursIgnoringCase "" s.
Proof. now exists "", (strings.toLowerCase s). Qed.

(** ** The key of a span *)

Lemma ofNumber_digits n : hasChar "." (strings.ofNumber n) = false.
Proof.
  unfold strings.ofNumber.
  induction (Nat.to_uint n) as [|d IH|d IH|d IH|d IH|d IH|d IH|d IH|d IH|d IH|d IH];
    simpl; auto.
Qed.

Lemma ofNumber_inj a b : strings.ofNumber a = strings.ofNumber b -> a = b.
Proof.
  unfold strings.ofNumber. intros E.
  assert (Some (Nat.to_uint a) = Some (Nat.to_uint b)) as E'
    by (rewrite <- !NilEmpty.usu; now rewrite E).
  injection E' as E'.
  rewrite <- (Unsigned.of_to a), <- (Unsigned.of_to b). now rewrite E'.
Qed.

Lemma append_dot_inj a : forall b x y,
  hasChar "." a = false -> hasChar "." b = false ->
  a +:+ "." +:+ x = b +:+ "." +:+ y -> a = b /\ x = y.
Proof.
  induction a as [|c a IH]; intros [|d b] x y Ha Hb E; simpl in *.
  - now injection E.
  - injection E as E _. subst d.
    rewrite Ascii.eqb_refl in Hb. discriminate.
  - injection E as E _. subst c.
    rewrite Ascii.eqb_refl in Ha. discriminate.
  - injection E as -> E.
    apply orb_false_iff in Ha as [_ Ha], Hb as [_ Hb].
    destruct (IH b x y Ha Hb E) as [-> ->]. easy.
Qed.

Lemma spanKey_inj a b :
  KeybindingItemMatches.spanKey a = KeybindingItemMatches.spanKey b -> a = b.
Proof.
  unfold KeybindingItemMatches.spanKey. intros E.
  apply append_dot_inj in E as [Es Ee]; auto using ofNumber_digits.
  apply ofNumber_inj in Es, Ee.
  destruct a, b; simpl in *; congruence.
Qed.

(** ** [distinct] and [sort] *)

Section Arrays.
Context {T : Type}.

Lemma distinctFrom_In (keyFn : T -> string) array : forall seen x,
  In x (arrays.distinctFrom keyFn seen array) -> In x array /\ keyFn x ∉ seen.
Proof.
  induction array as [|e array IH]; intros seen x; simpl; [easy|].
  destruct (decide (keyFn e ∈ seen)) as [S|S].
  - intros I. apply IH in I as [I N]. auto.
  - intros [->|I]; [auto|].
    apply IH in I as [I N]. split; [auto|].
    intros Hx. apply N, elem_of_union_r, Hx.
Qed.

Lemma distinctFrom_keeps (keyFn : T -> string) array : forall seen x,
  In x array -> keyFn x ∉ seen ->
  exists y, In y (arrays.distinctFrom keyFn seen array) /\ keyFn y = keyFn x.
Proof.
  induction array as [|e array IH]; intros seen x; simpl; [easy|].
  intros [->|I] N.
  - destruct (decide (keyFn x ∈ seen)); [easy|].
    exists x. simpl. auto.
  - destruct (decide (keyFn e ∈ seen)) as [S|S]; [now apply IH|].
    destruct (decide (keyFn x = keyFn e)) as [E|E].
    + exists e. simpl. auto.
    + destruct (IH ({[ keyFn e ]} ∪ seen) x I) as (y & Iy & Ey).
      { intros Hx. apply elem_of_union in Hx as [Hx|Hx]; [|easy].
        now apply elem_of_singleton in Hx. }
      exists y. simpl. auto.
Qed.

Lemma distinctFrom_NoDup (keyFn : T -> string) array : forall seen,
  List.NoDup (arrays.distinctFrom keyFn seen array).
Proof.
  induction array as [|e array IH]; intros seen; simpl; [constructor|].
  destruct (decide (keyFn e ∈ seen)) as [S|S]; [apply IH|].
  constructor; [|apply IH].
  intros I. apply distinctFrom_In in I as [_ N].
  now apply N, elem_of_union_l, elem_of_singleton.
Qed.

(** With a key that tells the elements apart, [distinct] keeps one copy
    of every element. *)
Lemma distinct_In (keyFn : T -> string) array x :
  (forall a b, keyFn a = keyFn b -> a = b) ->
  In x (arrays.distinct array keyFn) <-> In x array.
Proof.
  intros Inj. unfold arrays.distinct. split.
  - intros I. now apply distinctFrom_In in I.
  - intros I.
    destruct (distinctFrom_keeps keyFn array ∅ x I) as (y & Iy & E);
      [apply not_elem_of_empty|].
    now rewrite <- (Inj _ _ E).
Qed.

Lemma insertLeft_Permutation (compareFn : T -> T -> Z) element reversedPrefix :
  Permutation (arrays.insertLeft compareFn element reversedPrefix)
              (element :: reversedPrefix).
Proof.
  induction reversedPrefix as [|tmp rest IH]; simpl; [reflexivity|].
  destruct (0 <? compareFn tmp element)%Z; [|reflexivity].
  rewrite IH. apply perm_swap.
Qed.

Lemma insertion_Permutation (compareFn : T -> T -> Z) a : forall acc,
  Permutation
    (fold_left (fun reversedPrefix element =>
                  arrays.insertLeft compareFn element reversedPrefix) a acc)
    (a ++ acc).
Proof.
  induction a as [|x a IH]; intros acc; simpl; [reflexivity|].
  rewrite IH, insertLeft_Permutation.
  symmetry. apply Permutation_middle.
Qed.

(** Whatever the comparison function, sorting rearranges the array and
    neither drops nor adds an element. *)
Lemma sort_Permutation (compareFn : T -> T -> Z) a :
  Permutation (arrays.sort compareFn a) a.
Proof.
  unfold arrays.sort.
  rewrite <- Permutation_rev, insertion_Permutation.
  now rewrite app_nil_r.
Qed.

(** Sorting by the difference of a numeric key. *)
Context (key : T -> nat).
Let byKey (a b : T) : Z := (Z.of_nat (key a) - Z.of_nat (key b))%Z.
Let descending (a b : T) : Prop := key b <= key a.
Let ascending (a b : T) : Prop := key a <= key b.

Lemma insertLeft_descending element reversedPrefix :
  StronglySorted descending reversedPrefix ->
  StronglySorted descending (arrays.insertLeft byKey element reversedPrefix).
Proof.
  induction 1 as [|tmp rest SS IH F]; simpl.
  - repeat constructor.
  - unfold byKey at 1.
    destruct (Z.ltb_spec 0 (Z.of_nat (key tmp) - Z.of_nat (key element))) as [L|L].
    + constructor; [exact IH|].
      rewrite insertLeft_Permutation.
      constructor; [unfold descending; lia | exact F].
    + constructor; [now constructor|].
      constructor; [unfold descending; lia|].
      eapply List.Forall_impl; [|exact F].
      unfold descending. intros; lia.
Qed.

Lemma insertion_descending a : forall acc,
  StronglySorted descending acc ->
  StronglySorted descending
    (fold_left (fun reversedPrefix element =>
                  arrays.insertLeft byKey element reversedPrefix) a acc).
Proof.
  induction a as [|x a IH]; intros acc SS; simpl; [exact SS|].
  apply IH, insertLeft_descending, SS.
Qed.

Lemma StronglySorted_snoc (R : T -> T -> Prop) l x :
  StronglySorted R l -> Forall (fun y => R y x) l ->
  StronglySorted R (l ++ [x]).
Proof.
  induction 1 as [|y l SS IH F]; simpl; intros Fx.
  - repeat constructor.
  - inversion Fx as [|? ? Ryx Fx']; subst.
    constructor; [now apply IH|].
    apply Forall_app. split; [exact F | now constructor].
Qed.

Lemma rev_ascending l :
  StronglySorted descending l -> StronglySorted ascending (rev l).
Proof.
  induction 1 as [|x l SS IH F]; simpl; [constructor|].
  apply StronglySorted_snoc; [exact IH|].
  apply Forall_rev. exact F.
Qed.

(** Sorting by the difference of a key puts the keys in ascending order. *)
Lemma sort_ascending a :
  StronglySorted ascending (arrays.sort byKey a).
Proof.
  unfold arrays.sort. apply rev_ascending, insertion_descending. constructor.
Qed.

End Arrays.

(** ** Post-processing of spans *)

Lemma covers_true m x :
  KeybindingItemMatches.covers m x = true
  <-> m <> x /\ filters.start m <= filters.start x
             /\ filters.end_ x <= filters.end_ m.
Proof.
  unfold KeybindingItemMatches.covers.
  rewrite !andb_true_iff, negb_true_iff, andb_false_iff,
          !Nat.leb_le, !Nat.eqb_neq.
  destruct m as [ms me], x as [xs xe]; simpl. split.
  - intros [D L]. split; [|exact L].
    intros E. injection E as -> ->. destruct D; congruence.
  - intros [D L]. split; [|exact L].
    destruct (Nat.eq_dec ms xs) as [->|]; [|auto].
    destruct (Nat.eq_dec me xe) as [->|]; [|auto].
    congruence.
Qed.

Lemma uncovered_iff matches x :
  existsb (fun m => KeybindingItemMatches.covers m x) matches = false
  <-> ~ covered matches x.
Proof.
  unfold covered. split.
  - intros E (m & I & C).
    assert (existsb (fun m => KeybindingItemMatches.covers m x) matches = true) as E'
      by (apply existsb_exists; exists m; split; [exact I | now apply covers_true]).
    congruence.
  - intros N.
    destruct (existsb _ matches) eqn:E; [|reflexivity].
    apply existsb_exists in E as (m & I & C).
    apply covers_true in C. exfalso. apply N. now exists m.
Qed.

(** C6.  For every list of match spans (so for every non-empty one), the
    result of [filterAndSort] holds no span twice; it holds exactly the spans
    of the input that no other, value-distinct span of the input covers (a
    covered span is dropped and the covering one kept, and no span is made
    by merging, as every span of the result is a span of the input); and it
    is sorted by start offset, ascending. *)
Theorem filterAndSort_spec (matches : list filters.IMatch) :
  let result := KeybindingItemMatches.filterAndSort matches in
  List.NoDup result
  /\ (forall x, In x result <-> In x matches /\ ~ covered matches x)
  /\ StronglySorted (fun a b => filters.start a <= filters.start b) result.
Proof.
  unfold KeybindingItemMatches.filterAndSort. cbv zeta.
  set (kept := List.filter _ _).
  pose proof (sort_Permutation
                (fun a b => (Z.of_nat (filters.start a) - Z.of_nat (filters.start b))%Z)
                kept) as P.
  split; [|split].
  - eapply Permutation_NoDup; [symmetry; exact P|].
    apply List.NoDup_filter, distinctFrom_NoDup.
  - intros x. split.
    + intros I. eapply Permutation_in in I; [|exact P].
      apply filter_In in I as [I U].
      apply distinct_In in I; [|exact spanKey_inj].
      apply negb_true_iff, uncovered_iff in U. easy.
    + intros [I U]. eapply Permutation_in; [symmetry; exact P|].
      apply filter_In. split.
      * apply distinct_In; [exact spanKey_inj | exact I].
      * now apply negb_true_iff, uncovered_iff.
  - apply (sort_ascending filters.start).
Qed.

(** ** Matching one field *)

Lemma matchesWordsFrom_fails wordToMatchAgainst wordMatchesFilter words :
  forall matches,
  Exists (fun word => wordMatchesFilter word wordToMatchAgainst = None) words ->
  KeybindingItemMatches.matchesWordsFrom matches words
    wordToMatchAgainst wordMatchesFilter = None.
Proof.
  induction words as [|word words IH]; intros matches E; simpl.
  - inversion E.
  - destruct (wordMatchesFilter word wordToMatchAgainst) eqn:F; [|reflexivity].
    inversion E; subst; [congruence | now apply IH].
Qed.

Lemma matchesWordsFrom_accumulates wordToMatchAgainst wordMatchesFilter words :
  forall matches spans,
  Forall2 (fun word wordMatches =>
             wordMatchesFilter word wordToMatchAgainst = Some wordMatches)
          words spans ->
  KeybindingItemMatches.matchesWordsFrom matches words
    wordToMatchAgainst wordMatchesFilter = Some (matches ++ concat spans).
Proof.
  induction words as [|word words IH]; intros matches spans F;
    inversion F as [|? wordMatches ? spans' Fw F']; subst; simpl.
  - now rewrite app_nil_r.
  - rewrite Fw, (IH _ spans' F'). now rewrite app_assoc.
Qed.

(** C5.  [matches] (the spec's matchField) first tries the whole query
    against the text with the first of prefix-match, word-match and
    contiguous-substring-match that succeeds; what that finds is the field
    match (post-processed).  Only when none of the three matches does it fall
    back on the words of the query: if the field's word matcher fails on one
    word, the field match is none, otherwise the spans of all the words are
    accumulated in order (and post-processed). *)
Theorem matches_spec `{filters.WordMatchers}
    (searchValue wordToMatchAgainst : string)
    (wordMatchesFilter : filters.IFilter) (words : list string) :
  KeybindingItemMatches.wordFilter searchValue wordToMatchAgainst
  = match filters.matchesPrefix searchValue wordToMatchAgainst with
    | Some m => Some m
    | None =>
        match filters.matchesWords searchValue wordToMatchAgainst false with
        | Some m => Some m
        | None => filters.matchesContiguousSubString searchValue wordToMatchAgainst
        end
    end
  /\ (forall m,
        KeybindingItemMatches.wordFilter searchValue wordToMatchAgainst = Some m ->
        KeybindingItemMatches.matches searchValue wordToMatchAgainst
          wordMatchesFilter words
        = Some (KeybindingItemMatches.filterAndSort m))
  /\ (KeybindingItemMatches.wordFilter searchValue wordToMatchAgainst = None ->
      Exists (fun word => wordMatchesFilter word wordToMatchAgainst = None) words ->
      KeybindingItemMatches.matches searchValue wordToMatchAgainst
        wordMatchesFilter words = None)
  /\ (KeybindingItemMatches.wordFilter searchValue wordToMatchAgainst = None ->
      forall spans,
      Forall2 (fun word wordMatches =>
                 wordMatchesFilter word wordToMatchAgainst = Some wordMatches)
              words spans ->
      KeybindingItemMatches.matches searchValue wordToMatchAgainst
        wordMatchesFilter words
      = Some (KeybindingItemMatches.filterAndSort (concat spans))).
Proof.
  split; [|split; [|split]].
  - unfold KeybindingItemMatches.wordFilter. simpl.
    destruct (filters.matchesPrefix _ _); [reflexivity|].
    destruct (filters.matchesWords _ _ _); [reflexivity|].
    now destruct (filters.matchesContiguousSubString _ _).
  - intros m W. unfold KeybindingItemMatches.matches. now rewrite W.
  - intros W E. unfold KeybindingItemMatches.matches.
    rewrite W. unfold KeybindingItemMatches.matchesWords.
    now rewrite matchesWordsFrom_fails.
  - intros W spans F. unfold KeybindingItemMatches.matches.
    rewrite W. unfold KeybindingItemMatches.matchesWords.
    now rewrite (matchesWordsFrom_accumulates _ _ _ _ spans F).
Qed.

(** ** Search *)

Lemma matches_eta (m : KeybindingItemMatches.t) :
  {| KeybindingItemMatches.commandIdMatches := KeybindingItemMatches.commandIdMatches m;
     KeybindingItemMatches.commandLabelMatches := KeybindingItemMatches.commandLabelMatches m;
     KeybindingItemMatches.commandDefaultLabelMatches :=
       KeybindingItemMatches.commandDefaultLabelMatches m;
     KeybindingItemMatches.sourceMatches := KeybindingItemMatches.sourceMatches m;
     KeybindingItemMatches.whenMatches := KeybindingItemMatches.whenMatches m;
     KeybindingItemMatches.keybindingMatches := KeybindingItemMatches.keybindingMatches m |}
  = m.
Proof. now destruct m. Qed.

Section Search.
Context `{filters.WordMatchers}.

Lemma fetchStep_app labels searchValue words keybindingWords result item :
  KeybindingsEditorModel.fetchStep labels searchValue words keybindingWords
    result item
  = result ++
    KeybindingsEditorModel.fetchStep labels searchValue words keybindingWords
      [] item.
Proof.
  unfold KeybindingsEditorModel.fetchStep. case_if; simpl.
  - reflexivity.
  - now rewrite app_nil_r.
Qed.

Lemma fetchStep_fold labels searchValue words keybindingWords items :
  forall result,
  fold_left (KeybindingsEditorModel.fetchStep labels searchValue words keybindingWords)
            items result
  = result ++
    fold_left (KeybindingsEditorModel.fetchStep labels searchValue words keybindingWords)
              items [].
Proof.
  induction items as [|item items IH]; intros result; simpl.
  - now rewrite app_nil_r.
  - rewrite IH, fetchStep_app. symmetry. rewrite IH.
    now rewrite app_assoc.
Qed.

Lemma fetchKeybindingItems_items this searchValue :
  map IKeybindingItemEntry.keybindingItem
      (KeybindingsEditorModel.fetchKeybindingItems this searchValue)
  = List.filter
      (fun entry => anyFieldMatches
         (matchEntry (KeybindingsEditorModel.modifierLabels this) searchValue entry))
      (KeybindingsEditorModel._keybindingItems this).
Proof.
  unfold KeybindingsEditorModel.fetchKeybindingItems, matchEntry.
  induction (KeybindingsEditorModel._keybindingItems this) as [|item items IH];
    simpl; [reflexivity|].
  rewrite fetchStep_fold, map_app, IH.
  unfold KeybindingsEditorModel.fetchStep at 1, anyFieldMatches.
  now case_if.
Qed.

Lemma fetchKeybindingItems_annotations this searchValue :
  Forall (fun result =>
            annotations result
            = matchEntry (KeybindingsEditorModel.modifierLabels this) searchValue
                (IKeybindingItemEntry.keybindingItem result)
            /\ anyFieldMatches (annotations result) = true)
         (KeybindingsEditorModel.fetchKeybindingItems this searchValue).
Proof.
  unfold KeybindingsEditorModel.fetchKeybindingItems, matchEntry.
  induction (KeybindingsEditorModel._keybindingItems this) as [|item items IH];
    simpl; [constructor|].
  rewrite fetchStep_fold. apply Forall_app. split; [|exact IH].
  unfold KeybindingsEditorModel.fetchStep, anyFieldMatches.
  match goal with
  | |- context [if ?b then _ else _] => destruct b eqn:A
  end; [|constructor].
  constructor; [|constructor]. unfold annotations. cbn [IKeybindingItemEntry.keybindingItem
    IKeybindingItemEntry.commandIdMatches IKeybindingItemEntry.commandLabelMatches
    IKeybindingItemEntry.commandDefaultLabelMatches IKeybindingItemEntry.sourceMatches
    IKeybindingItemEntry.whenMatches IKeybindingItemEntry.keybindingMatches].
  split; [apply matches_eta | exact A].
Qed.

End Search.

(** C1.  After trimming, an empty query gives one result per stored entry,
    in stored order, with the six match fields absent; a non-empty query
    gives, in stored order, exactly the stored entries on which the entry
    matcher sets at least one of the six fields, each result carrying the six
    fields the matcher computed for its entry. *)
Theorem fetch_spec `{filters.WordMatchers}
    (this : KeybindingsEditorModel.t) (query : string) :
  let results := KeybindingsEditorModel.fetch this query in
  let labels := KeybindingsEditorModel.modifierLabels this in
  (strings.trim query = "" ->
     map IKeybindingItemEntry.keybindingItem results
       = KeybindingsEditorModel._keybindingItems this
     /\ Forall (fun result => annotations result = noFieldMatches) results)
  /\ (strings.trim query <> "" ->
     map IKeybindingItemEntry.keybindingItem results
       = List.filter
           (fun entry => anyFieldMatches (matchEntry labels (strings.trim query) entry))
           (KeybindingsEditorModel._keybindingItems this)
     /\ Forall (fun result =>
                  annotations result
                  = matchEntry labels (strings.trim query)
                      (IKeybindingItemEntry.keybindingItem result)
                  /\ anyFieldMatches (annotations result) = true)
               results).
Proof.
  unfold KeybindingsEditorModel.fetch. cbv zeta. split.
  - intros E. rewrite E. simpl. split.
    + rewrite map_map. simpl. apply map_id.
    + apply Forall_map. simpl. now apply Forall_forall.
  - intros N. apply truthy_nonempty in N. rewrite N. split.
    + apply fetchKeybindingItems_items.
    + apply fetchKeybindingItems_annotations.
Qed.

(** ** Matching a key combination *)

Section KeyCombination.
Context (labels : ModifierLabels).

Lemma matchPart_matched part match_ word :
  fst (KeybindingItemMatches.matchPart labels part match_ word)
  = wordMatchesPart labels part word.
Proof.
  unfold KeybindingItemMatches.matchPart, wordMatchesPart.
  destruct (KeybindingItemMatches.matchesMetaModifier labels part word),
           (KeybindingItemMatches.matchesCtrlModifier labels part word),
           (KeybindingItemMatches.matchesShiftModifier labels part word),
           (KeybindingItemMatches.matchesAltModifier labels part word),
           (KeybindingItemMatches.matchesKeyCode part word); reflexivity.
Qed.

(** The words pushed on [matchedWords] are the words that match one of the
    two parts. *)
Lemma matchWord_matchedWords firstPart chordPart words :
  forall matchedWords firstPartMatch chordPartMatch,
  fst (fst (fold_left (KeybindingItemMatches.matchWord labels firstPart chordPart)
                      words (matchedWords, firstPartMatch, chordPartMatch)))
  = matchedWords ++
    List.filter (fun word => wordMatchesPart labels firstPart word
                             || wordMatchesPart labels chordPart word) words.
Proof.
  induction words as [|word words IH]; intros matchedWords firstPartMatch chordPartMatch;
    simpl.
  - now rewrite app_nil_r.
  - pose proof (matchPart_matched firstPart firstPartMatch word) as F.
    pose proof (matchPart_matched chordPart chordPartMatch word) as C.
    destruct (KeybindingItemMatches.matchPart labels firstPart firstPartMatch word)
      as [firstPartMatched firstPartMatch'].
    destruct (KeybindingItemMatches.matchPart labels chordPart chordPartMatch word)
      as [chordPartMatched chordPartMatch'].
    simpl in F, C. subst. rewrite IH.
    case_if; [now rewrite <- app_assoc | reflexivity].
Qed.

Lemma filter_length_lt {A : Type} (p : A -> bool) (l : list A) :
  Exists (fun x => p x = false) l ->
  List.length (List.filter p l) < List.length l.
Proof.
  induction 1 as [x l E | x l E IH]; simpl.
  - rewrite E. pose proof (filter_length_le p l). lia.
  - destruct (p x); simpl; lia.
Qed.

End KeyCombination.

(** C2, as stated, fails on the chord Ctrl+K Ctrl+C searched by its own
    display label: the query holds a '+', so its key-words are "ctrl",
    "k ctrl" and "c"; the word "k ctrl" matches neither part on any flag, and
    yet the key-combination field is matched (in full), because the query
    equals the display label ignoring case. *)
Lemma matchesKeybinding_word_rule_counterexample :
  let query := "ctrl+k ctrl+c" in
  let keyWords := KeybindingsEditorModel.keybindingWordsOf query in
  let labels := examples.labels platform.Windows in
  let parts := keyCodes.getParts examples.ctrlK_ctrlC in
  keyWords = ["ctrl"; "k ctrl"; "c"]
  /\ In "k ctrl" keyWords
  /\ wordMatchesPart labels (fst parts) "k ctrl" = false
  /\ wordMatchesPart labels (snd parts) "k ctrl" = false
  /\ KeybindingItemMatches.matchesKeybinding labels examples.ctrlK_ctrlC query keyWords
     = Some {| firstPart := KeybindingItemMatches.allFlags;
               chordPart := KeybindingItemMatches.allFlags |}.
Proof. cbv zeta. repeat split; try reflexivity. simpl. auto. Qed.

(** C2 (amended).  When the query equals neither the accessible label nor
    the display label of the key combination ignoring case, one key-word
    that matches neither the first part nor the chord part on any of the five
    flags leaves the key-combination field unmatched, however many other
    words matched.  In particular the query "ctrl+z" does not match a
    combination bound to ctrl+x, on any platform's label styles. *)
Theorem matchesKeybinding_every_word_must_match :
  (forall (labels : ModifierLabels) (keybinding : ResolvedKeybinding)
          (query : string) (keyWords : list string),
     ~ equalIgnoringCase query (keyCodes.getAriaLabel keybinding) ->
     ~ equalIgnoringCase query (keyCodes.getLabel keybinding) ->
     (exists word,
        In word keyWords
        /\ wordMatchesPart labels (fst (keyCodes.getParts keybinding)) word = false
        /\ wordMatchesPart labels (snd (keyCodes.getParts keybinding)) word = false) ->
     KeybindingItemMatches.matchesKeybinding labels keybinding query keyWords = None)
  /\ (forall os,
        KeybindingItemMatches.matchesKeybinding (examples.labels os) examples.ctrlX
          "ctrl+z" (KeybindingsEditorModel.keybindingWordsOf "ctrl+z") = None).
Proof.
  split.
  - intros labels keybinding query keyWords NA NL (word & I & F & C).
    unfold KeybindingItemMatches.matchesKeybinding.
    rewrite <- compareIgnoreCase_zero in NA, NL.
    apply Z.eqb_neq in NA, NL. rewrite NA, NL. simpl.
    destruct (keyCodes.getParts keybinding) as [firstPart chordPart]. simpl in F, C.
    pose proof (matchWord_matchedWords labels firstPart chordPart keyWords []
                  KeybindingItemMatches.noFlags KeybindingItemMatches.noFlags) as M.
    destruct (fold_left _ keyWords _) as [[matchedWords firstPartMatch] chordPartMatch].
    simpl in M. subst matchedWords.
    assert (List.length
              (List.filter (fun word => wordMatchesPart labels firstPart word
                                        || wordMatchesPart labels chordPart word)
                           keyWords)
            < List.length keyWords) as L.
    { apply filter_length_lt, List.Exists_exists. exists word.
      split; [exact I | now rewrite F, C]. }
    apply Nat.lt_neq, Nat.eqb_neq in L. now rewrite L.
  - intros os. now destruct os.
Qed.

Lemma matchesKeybinding_every_word_must_match_witness :
  KeybindingItemMatches.matchesKeybinding (examples.labels platform.Windows)
    examples.ctrlZ "ctrl+q" ["ctrl"; "q"] = None.
Proof.
  apply (proj1 matchesKeybinding_every_word_must_match).
  - unfold equalIgnoringCase. simpl. discriminate.
  - unfold equalIgnoringCase. simpl. discriminate.
  - exists "q". simpl. repeat split; auto.
Defined.

(** C3.  When the query equals the accessible label or the display label of
    the key combination ignoring case, [matchesKeybinding] answers with all
    five flags (meta, ctrl, shift, alt, keyCode) true in the first part and
    in the chord part, whatever the key-words are and whatever parts the
    combination has (so also when it has no chord). *)
Theorem matchesKeybinding_full_label (labels : ModifierLabels)
    (keybinding : ResolvedKeybinding) (query : string) (keyWords : list string) :
  equalIgnoringCase query (keyCodes.getAriaLabel keybinding)
  \/ equalIgnoringCase query (keyCodes.getLabel keybinding) ->
  exists m,
    KeybindingItemMatches.matchesKeybinding labels keybinding query keyWords = Some m
    /\ flagsOf (firstPart m) = [true; true; true; true; true]
    /\ flagsOf (chordPart m) = [true; true; true; true; true].
Proof.
  intros E. unfold KeybindingItemMatches.matchesKeybinding.
  rewrite <- !compareIgnoreCase_zero in E.
  assert ((strings.compareIgnoreCase query (keyCodes.getAriaLabel keybinding) =? 0)%Z
          || (strings.compareIgnoreCase query (keyCodes.getLabel keybinding) =? 0)%Z
          = true) as ->.
  { apply orb_true_iff. now rewrite !Z.eqb_eq. }
  eexists. split; [reflexivity|]. split; reflexivity.
Qed.

Lemma matchesKeybinding_full_label_witness :
  snd (keyCodes.getParts examples.ctrlZ) = None
  /\ exists m,
       KeybindingItemMatches.matchesKeybinding (examples.labels platform.Windows)
         examples.ctrlZ "CONTROL+z" ["CONTROL"; "z"] = Some m
       /\ flagsOf (firstPart m) = [true; true; true; true; true]
       /\ flagsOf (chordPart m) = [true; true; true; true; true].
Proof.
  split; [reflexivity|].
  apply matchesKeybinding_full_label.
  left. reflexivity.
Defined.

(** ** The per-flag checks *)

(** The chain of tests shared by the four modifier checks: the part carries
    the modifier and one of the three labels prefix-matches, with the label
    in the place of the filter's word and the query word in the place of the
    text it is matched against. *)
Lemma modifier_check (carried : bool) (uiLabel ariaLabel userLabel word : string) :
  (if negb carried then false
   else if isSome (filters.matchesPrefix uiLabel word) then true
   else if isSome (filters.matchesPrefix ariaLabel word) then true
   else if isSome (filters.matchesPrefix userLabel word) then true
   else false) = true
  <-> carried = true /\ word <> ""
      /\ (prefixIgnoringCase uiLabel word
          \/ prefixIgnoringCase ariaLabel word
          \/ prefixIgnoringCase userLabel word).
Proof.
  pose proof (matchesPrefix_isSome uiLabel word) as U.
  pose proof (matchesPrefix_isSome ariaLabel word) as A.
  pose proof (matchesPrefix_isSome userLabel word) as S.
  destruct carried; simpl; [|split; [discriminate | now intros [? _]]].
  destruct (isSome (filters.matchesPrefix uiLabel word)).
  { destruct (proj1 U eq_refl). tauto. }
  destruct (isSome (filters.matchesPrefix ariaLabel word)).
  { destruct (proj1 A eq_refl). tauto. }
  destruct (isSome (filters.matchesPrefix userLabel word)).
  { destruct (proj1 S eq_refl). tauto. }
  split; [discriminate|].
  intros (_ & N & [P|[P|P]]).
  - now apply U.
  - now apply A.
  - now apply S.
Qed.

(** The 32 outcomes of the five checks of [matchPart]. *)
Ltac matchPart_cases labels part word :=
  unfold KeybindingItemMatches.matchPart;
  destruct (KeybindingItemMatches.matchesMetaModifier labels part word),
           (KeybindingItemMatches.matchesCtrlModifier labels part word),
           (KeybindingItemMatches.matchesShiftModifier labels part word),
           (KeybindingItemMatches.matchesAltModifier labels part word),
           (KeybindingItemMatches.matchesKeyCode part word);
  simpl; now rewrite ?orb_true_r, ?orb_false_r.

(** C7, as stated, fails: the word "ct" is a prefix of the label "Ctrl"
    ignoring case and the part carries ctrl, yet the ctrl flag is not matched;
    the code asks for the label to be a prefix of the word. *)
Lemma matchesCtrlModifier_prefix_counterexample :
  let labels := examples.labels platform.Windows in
  let part := fst (keyCodes.getParts examples.ctrlZ) in
  (exists p, part = Some p /\ keyCodes.hasCtrlModifier p = true
             /\ (prefixIgnoringCase "ct" (keybindingLabels.ctrlKey (ui labels))
                 \/ prefixIgnoringCase "ct" (keybindingLabels.ctrlKey (aria labels))
                 \/ prefixIgnoringCase "ct" (keybindingLabels.ctrlKey (user labels))))
  /\ KeybindingItemMatches.matchesCtrlModifier labels part "ct" = false
  /\ ctrlKey (snd (KeybindingItemMatches.matchPart labels part
                     KeybindingItemMatches.noFlags "ct")) = None.
Proof.
  cbv zeta. split; [|split; reflexivity].
  eexists. split; [reflexivity|]. split; [reflexivity|].
  left. now exists "rl".
Qed.

(** C7 (amended).  The meta, ctrl, shift or alt flag of a part is matched by
    a word exactly when the part is present and carries that modifier, the
    word is not empty, and the display string of that modifier in one of the
    three active label styles (UI, accessibility, user settings) is a prefix
    of the word, ignoring case.  [matchPart] sets the flag exactly then and
    never clears a flag.  An absent part matches nothing on any of the five
    checks. *)
Theorem modifier_flags_spec (labels : ModifierLabels)
    (part : option ResolvedKeybinding) (word : string) :
  let matched (carries : ResolvedKeybinding -> bool)
              (label : ModLabels -> string) : Prop :=
    exists p, part = Some p /\ carries p = true /\ word <> ""
              /\ (prefixIgnoringCase (label (ui labels)) word
                  \/ prefixIgnoringCase (label (aria labels)) word
                  \/ prefixIgnoringCase (label (user labels)) word) in
  (KeybindingItemMatches.matchesMetaModifier labels part word = true
     <-> matched keyCodes.hasMetaModifier keybindingLabels.metaKey)
  /\ (KeybindingItemMatches.matchesCtrlModifier labels part word = true
     <-> matched keyCodes.hasCtrlModifier keybindingLabels.ctrlKey)
  /\ (KeybindingItemMatches.matchesShiftModifier labels part word = true
     <-> matched keyCodes.hasShiftModifier keybindingLabels.shiftKey)
  /\ (KeybindingItemMatches.matchesAltModifier labels part word = true
     <-> matched keyCodes.hasAltModifier keybindingLabels.altKey)
  /\ (forall match_,
        let match' := snd (KeybindingItemMatches.matchPart labels part match_ word) in
        flagSet (metaKey match')
          = flagSet (metaKey match_)
            || KeybindingItemMatches.matchesMetaModifier labels part word
        /\ flagSet (ctrlKey match')
          = flagSet (ctrlKey match_)
            || KeybindingItemMatches.matchesCtrlModifier labels part word
        /\ flagSet (shiftKey match')
          = flagSet (shiftKey match_)
            || KeybindingItemMatches.matchesShiftModifier labels part word
        /\ flagSet (altKey match')
          = flagSet (altKey match_)
            || KeybindingItemMatches.matchesAltModifier labels part word)
  /\ wordMatchesPart labels None word = false
  /\ (forall match_,
        KeybindingItemMatches.matchPart labels None match_ word = (false, match_)).
Proof.
  cbv zeta.
  assert (forall (carries : ResolvedKeybinding -> bool) (label : ModLabels -> string),
            (match part with
             | None => false
             | Some keybinding =>
                 if negb (carries keybinding) then false
                 else if isSome (filters.matchesPrefix (label (ui labels)) word) then true
                 else if isSome (filters.matchesPrefix (label (aria labels)) word) then true
                 else if isSome (filters.matchesPrefix (label (user labels)) word) then true
                 else false
             end) = true
            <-> exists p, part = Some p /\ carries p = true /\ word <> ""
                          /\ (prefixIgnoringCase (label (ui labels)) word
                              \/ prefixIgnoringCase (label (aria labels)) word
                              \/ prefixIgnoringCase (label (user labels)) word)) as G.
  { intros carries label. destruct part as [p|].
    - rewrite modifier_check. split.
      + intros (C & N & P). now exists p.
      + intros (p' & E & C & N & P). injection E as <-. easy.
    - split; [discriminate | intros (p' & E & _); discriminate]. }
  repeat split; try apply (G _ _); try (apply G; assumption).
  - matchPart_cases labels part word.
  - matchPart_cases labels part word.
  - matchPart_cases labels part word.
  - matchPart_cases labels part word.
Qed.

(** C8, as stated, fails on the empty word, which the query "ctrl+" yields
    as its second key-word: against the key label "Escape" neither string has
    length 1 and the word is not longer than 1, so the claim's condition is
    false, yet the keyCode flag is matched, the empty word being found at
    offset 0. *)
Lemma matchesKeyCode_lengths_counterexample :
  let part := fst (keyCodes.getParts examples.ctrlEscape) in
  let L := "Escape" in
  let word := "" in
  KeybindingsEditorModel.keybindingWordsOf "ctrl+" = ["ctrl"; word]
  /\ (exists p, part = Some p /\ keyCodes.getAriaLabelWithoutModifiers p = L)
  /\ KeybindingItemMatches.matchesKeyCode part word = true
  /\ ~ (((String.length L = 1 \/ String.length word = 1) /\ equalIgnoringCase L word)
        \/ (1 < String.length L /\ 1 < String.length word
            /\ occursIgnoringCase word L)).
Proof.
  cbv zeta. split; [reflexivity|]. split; [now eexists|]. split; [reflexivity|].
  simpl. intros [[[E|E] _]|(_ & L & _)]; try discriminate; lia.
Qed.

(** C8 (amended).  For a present part with accessible label [L] (without
    modifiers), the keyCode flag is matched by a word exactly when either [L]
    or the word has length 1 and the two are equal ignoring case, or neither
    has length 1 and the word occurs in [L] as a contiguous substring,
    ignoring case (as the empty word always does). *)
Theorem matchesKeyCode_spec (part : ResolvedKeybinding) (word : string) :
  let L := keyCodes.getAriaLabelWithoutModifiers part in
  KeybindingItemMatches.matchesKeyCode (Some part) word = true
  <-> ((String.length L = 1 \/ String.length word = 1) /\ equalIgnoringCase L word)
      \/ (String.length L <> 1 /\ String.length word <> 1
          /\ occursIgnoringCase word L).
Proof.
  cbv zeta. unfold KeybindingItemMatches.matchesKeyCode.
  destruct (Nat.eqb_spec (String.length (keyCodes.getAriaLabelWithoutModifiers part)) 1)
    as [L1|L1];
  destruct (Nat.eqb_spec (String.length word) 1) as [W1|W1]; simpl;
    rewrite ?Z.eqb_eq, ?compareIgnoreCase_zero, ?matchesContiguousSubString_isSome;
    tauto.
Qed.

(** ** The order of the snapshot *)

(** C9.  [compareKeybindingData] decides, in this order: (1) an entry with
    a key combination sorts before an entry without; (2) with key
    combinations on both or on neither, an entry with a non-empty label sorts
    before an entry without; (3) two different non-empty labels compare by
    the locale's order of the labels; (4) with labels that do not decide and
    equal command identifiers, the entry that is not a default one sorts
    before the default one; (5) with different command identifiers the
    entries compare by the locale's order of the identifiers. *)
Theorem compareKeybindingData_spec (localeCompare : string -> string -> Z)
    (a b : IKeybindingItem) :
  let compare := KeybindingsEditorModel.compareKeybindingData localeCompare in
  let sameCombination := (keybinding a = None <-> keybinding b = None) in
  (keybinding a <> None -> keybinding b = None ->
     compare a b = (-1)%Z /\ compare b a = 1%Z)
  /\ (sameCombination -> commandLabel a <> "" -> commandLabel b = "" ->
     compare a b = (-1)%Z /\ compare b a = 1%Z)
  /\ (sameCombination -> commandLabel a <> "" -> commandLabel b <> "" ->
     commandLabel a <> commandLabel b ->
     compare a b = localeCompare (commandLabel a) (commandLabel b))
  /\ (sameCombination -> commandLabel a = commandLabel b ->
     command a = command b ->
     resolvedKeybindingItem.isDefault (keybindingItem a) = false ->
     resolvedKeybindingItem.isDefault (keybindingItem b) = true ->
     compare a b = (-1)%Z /\ compare b a = 1%Z)
  /\ (sameCombination -> commandLabel a = commandLabel b ->
     command a <> command b ->
     compare a b = localeCompare (command a) (command b)).
Proof.
  cbv zeta. unfold KeybindingsEditorModel.compareKeybindingData.
  pose proof (truthy_nonempty (commandLabel a)) as Ta.
  pose proof (truthy_nonempty (commandLabel b)) as Tb.
  destruct (String.eqb_spec (commandLabel a) (commandLabel b)) as [El|El];
  destruct (String.eqb_spec (command a) (command b)) as [Ec|Ec];
  rewrite ?(proj2 (String.eqb_eq _ _) (eq_sym El)),
          ?(proj2 (String.eqb_eq _ _) (eq_sym Ec));
  try (assert (String.eqb (command b) (command a) = false) as ->
         by (apply String.eqb_neq; congruence));
  try (assert (String.eqb (commandLabel b) (commandLabel a) = false) as ->
         by (apply String.eqb_neq; congruence));
  destruct (keybinding a) as [ka|], (keybinding b) as [kb|];
  destruct (strings.truthy (commandLabel a)) eqn:La,
           (strings.truthy (commandLabel b)) eqn:Lb;
  destruct (resolvedKeybindingItem.isDefault (keybindingItem a)),
           (resolvedKeybindingItem.isDefault (keybindingItem b));
  simpl; repeat split; intros;
  try reflexivity; try congruence; try discriminate;
  try (exfalso; intuition congruence).
Qed.

Lemma compareKeybindingData_spec_witness :
  let compare := KeybindingsEditorModel.compareKeybindingData strings.compareIgnoreCase in
  let zebra := examples.entry (Some examples.ctrlZ) "Zebra" "zoo.zebra" true in
  let unbound := examples.entry None "Aardvark" "zoo.aardvark" true in
  let unlabelled := examples.entry None "" "zoo.unlabelled" true in
  let appleUser := examples.entry None "Apple" "fruit.apple" false in
  let appleDefault := examples.entry None "Apple" "fruit.apple" true in
  let appleOther := examples.entry None "Apple" "fruit.other" true in
  (compare zebra unbound = (-1)%Z /\ compare unbound zebra = 1%Z)
  /\ (compare unbound unlabelled = (-1)%Z /\ compare unlabelled unbound = 1%Z)
  /\ compare unbound appleUser = strings.compareIgnoreCase "Aardvark" "Apple"
  /\ (compare appleUser appleDefault = (-1)%Z /\ compare appleDefault appleUser = 1%Z)
  /\ compare appleDefault appleOther = strings.compareIgnoreCase "fruit.apple" "fruit.other".
Proof.
  cbv zeta.
  pose proof (compareKeybindingData_spec strings.compareIgnoreCase
                (examples.entry (Some examples.ctrlZ) "Zebra" "zoo.zebra" true)
                (examples.entry None "Aardvark" "zoo.aardvark" true))
    as (R1 & _).
  pose proof (compareKeybindingData_spec strings.compareIgnoreCase
                (examples.entry None "Aardvark" "zoo.aardvark" true)
                (examples.entry None "" "zoo.unlabelled" true))
    as (_ & R2 & _).
  pose proof (compareKeybindingData_spec strings.compareIgnoreCase
                (examples.entry None "Aardvark" "zoo.aardvark" true)
                (examples.entry None "Apple" "fruit.apple" false))
    as (_ & _ & R3 & _).
  pose proof (compareKeybindingData_spec strings.compareIgnoreCase
                (examples.entry None "Apple" "fruit.apple" false)
                (examples.entry None "Apple" "fruit.apple" true))
    as (_ & _ & _ & R4 & _).
  pose proof (compareKeybindingData_spec strings.compareIgnoreCase
                (examples.entry None "Apple" "fruit.apple" true)
                (examples.entry None "Apple" "fruit.other" true))
    as (_ & _ & _ & _ & R5).
  split; [|split; [|split; [|split]]].
  - apply R1; [discriminate | reflexivity].
  - apply R2; [easy | discriminate | reflexivity].
  - apply R3; [easy | discriminate | discriminate | discriminate].
  - apply R4; [easy | reflexivity | reflexivity | reflexivity | reflexivity].
  - apply R5; [easy | reflexivity | discriminate].
Defined.

(** Outside the five rules: two default entries of one command and one
    label (a command with two default key combinations) each sort after the
    other, so the comparison is not antisymmetric there. *)
Lemma compareKeybindingData_two_defaults :
  let compare := KeybindingsEditorModel.compareKeybindingData strings.compareIgnoreCase in
  let a := examples.entry (Some examples.ctrlZ) "Undo" "editor.action.undo" true in
  let b := examples.entry (Some examples.ctrlX) "Undo" "editor.action.undo" true in
  compare a b = 1%Z /\ compare b a = 1%Z.
Proof. split; reflexivity. Qed.

(** ** Rebuilding the snapshot *)

Section Rebuild.
Context (services : Services).

Lemma addBound_boundCommands editorActions keybindings : forall items boundCommands c,
  snd (fold_left (KeybindingsEditorModel.addBound services editorActions)
                 keybindings (items, boundCommands)) !! c = Some true
  <-> boundCommands !! c = Some true
      \/ (c <> "" /\ In (Some c) (map resolvedKeybindingItem.command keybindings)).
Proof.
  induction keybindings as [|k keybindings IH]; intros items boundCommands c; simpl.
  - tauto.
  - destruct (resolvedKeybindingItem.command k) as [cmd|].
    + destruct (strings.truthy cmd) eqn:T.
      * apply truthy_nonempty in T. rewrite IH.
        destruct (decide (cmd = c)) as [->|N].
        -- rewrite lookup_insert_eq. tauto.
        -- rewrite lookup_insert_ne by exact N.
           split; [tauto|]. intros [B|[Nc [E|I]]]; [tauto | congruence | tauto].
      * rewrite IH. split; [tauto|].
        intros [B|[Nc [E|I]]]; [tauto | | tauto].
        injection E as ->. apply truthy_nonempty in Nc. congruence.
    + rewrite IH. split; [tauto|].
      intros [B|[Nc [E|I]]]; [tauto | discriminate | tauto].
Qed.

(** The commands the resolver is told are bound: the non-empty commands of
    the current keybindings. *)
Lemma bound_boundCommands c :
  snd (KeybindingsEditorModel.bound services) !! c = Some true
  <-> c <> ""
      /\ In (Some c) (map resolvedKeybindingItem.command (getKeybindings services)).
Proof.
  unfold KeybindingsEditorModel.bound.
  rewrite addBound_boundCommands, lookup_empty.
  split; [intros [?|?]; [discriminate | assumption] | auto].
Qed.

Lemma addUnbound_fold editorActions defaults commands : forall items,
  fold_left (KeybindingsEditorModel.addUnbound services editorActions defaults)
            commands items
  = items ++
    flat_map (KeybindingsEditorModel.addUnbound services editorActions defaults [])
             commands.
Proof.
  induction commands as [|c commands IH]; intros items; simpl.
  - now rewrite app_nil_r.
  - rewrite IH. unfold KeybindingsEditorModel.addUnbound.
    now rewrite <- app_assoc.
Qed.

Lemma existsb_In (defaults : list (option string)) (c : string) :
  existsb (fun d => bool_decide (d = Some c)) defaults = true
  <-> In (Some c) defaults.
Proof.
  rewrite existsb_exists. split.
  - intros (d & I & E). apply bool_decide_eq_true in E. now subst.
  - intros I. exists (Some c). split; [exact I | now apply bool_decide_eq_true].
Qed.

End Rebuild.

(** C10.  After [resolve] the snapshot holds, besides the entries of the
    current keybindings, one synthetic entry per unbound command the resolver
    reports, in some order.  The synthetic entry of a command has that
    command and no key combination; its source is "Default" exactly when the
    command is not the command of any default keybinding, and "User"
    otherwise (an unbound command with a default binding, that is, one whose
    binding the user removed). *)
Theorem resolve_unbound_commands (services : Services)
    (this : KeybindingsEditorModel.t) :
  let unbound :=
    getAllUnboundCommands services (snd (KeybindingsEditorModel.bound services)) in
  let defaults := map resolvedKeybindingItem.command (getDefaultKeybindings services) in
  exists synthetic,
    Permutation
      (KeybindingsEditorModel._keybindingItems (KeybindingsEditorModel.resolve services this))
      (fst (KeybindingsEditorModel.bound services) ++ synthetic)
    /\ Forall2
         (fun c entry =>
            command entry = c
            /\ keybinding entry = None
            /\ (source entry = "Default" <-> ~ In (Some c) defaults)
            /\ (source entry = "User" <-> In (Some c) defaults))
         unbound synthetic.
Proof.
  cbv zeta.
  exists (flat_map
            (KeybindingsEditorModel.addUnbound services
               (KeybindingsEditorModel.editorActionsOf services)
               (KeybindingsEditorModel.commandsWithDefaultKeybindings services) [])
            (getAllUnboundCommands services (snd (KeybindingsEditorModel.bound services)))).
  split.
  - unfold KeybindingsEditorModel.resolve. simpl.
    rewrite sort_Permutation. unfold KeybindingsEditorModel.collect.
    destruct (KeybindingsEditorModel.bound services) as [items boundCommands]. simpl.
    now rewrite addUnbound_fold.
  - induction (getAllUnboundCommands services _) as [|c commands IH]; simpl;
      constructor; [|exact IH].
    unfold KeybindingsEditorModel.commandsWithDefaultKeybindings.
    pose proof (existsb_In (map resolvedKeybindingItem.command
                                (getDefaultKeybindings services)) c) as D.
    change (nls.localize "default" "Default") with "Default".
    change (nls.localize "user" "User") with "User".
    destruct (existsb _ _); simpl.
    + assert (In (Some c) (map resolvedKeybindingItem.command
                               (getDefaultKeybindings services))) as I
        by now apply D.
      repeat split; try discriminate; tauto.
    + assert (~ In (Some c) (map resolvedKeybindingItem.command
                                 (getDefaultKeybindings services))) as I
        by (intros I; apply D in I; discriminate).
      repeat split; try discriminate; tauto.
Qed.

(** ** The worked example: one entry, three queries *)

Lemma fetch_single `{filters.WordMatchers} (labels : ModifierLabels)
    (item : IKeybindingItem) (query : string) :
  strings.trim query <> "" ->
  map annotations
      (KeybindingsEditorModel.fetch
         {| KeybindingsEditorModel.modifierLabels := labels;
            KeybindingsEditorModel._keybindingItems := [item] |} query)
  = if anyFieldMatches (matchEntry labels (strings.trim query) item)
    then [matchEntry labels (strings.trim query) item]
    else [].
Proof.
  intros N. unfold KeybindingsEditorModel.fetch.
  apply truthy_nonempty in N. rewrite N.
  unfold KeybindingsEditorModel.fetchKeybindingItems. simpl.
  unfold KeybindingsEditorModel.fetchStep, matchEntry, anyFieldMatches.
  case_if; [|reflexivity].
  reflexivity.
Qed.

Lemma matchesKeybinding_ctrl_z os label ariaLabel :
  ~ equalIgnoringCase "ctrl+z" ariaLabel ->
  ~ equalIgnoringCase "ctrl+z" label ->
  KeybindingItemMatches.matchesKeybinding (examples.labels os)
    (examples.simple label ariaLabel "Z" true false false false)
    "ctrl+z" ["ctrl"; "z"]
  = Some {| firstPart := {| ctrlKey := Some true; shiftKey := None; altKey := None;
                            metaKey := None; keyCode := Some true |};
            chordPart := KeybindingItemMatches.noFlags |}.
Proof.
  intros NA NL. unfold KeybindingItemMatches.matchesKeybinding.
  rewrite <- compareIgnoreCase_zero in NA, NL.
  apply Z.eqb_neq in NA, NL.
  change (keyCodes.getAriaLabel (examples.simple label ariaLabel "Z" true false false false))
    with ariaLabel.
  change (keyCodes.getLabel (examples.simple label ariaLabel "Z" true false false false))
    with label.
  rewrite NA, NL. now destruct os.
Qed.

Lemma matchesKeybinding_redo os label ariaLabel :
  ~ equalIgnoringCase "redo" ariaLabel ->
  ~ equalIgnoringCase "redo" label ->
  KeybindingItemMatches.matchesKeybinding (examples.labels os)
    (examples.simple label ariaLabel "Z" true false false false)
    "redo" ["redo"]
  = None.
Proof.
  intros NA NL. unfold KeybindingItemMatches.matchesKeybinding.
  rewrite <- compareIgnoreCase_zero in NA, NL.
  apply Z.eqb_neq in NA, NL.
  change (keyCodes.getAriaLabel (examples.simple label ariaLabel "Z" true false false false))
    with ariaLabel.
  change (keyCodes.getLabel (examples.simple label ariaLabel "Z" true false false false))
    with label.
  rewrite NA, NL. now destruct os.
Qed.

(** C4, as stated, fails where ctrl+z is displayed as "Ctrl+Z" (Windows and
    Linux): the query "ctrl+z" equals that label ignoring case, so the one
    result carries all five flags in both parts, not ctrlKey and keyCode
    alone. *)
Lemma example_ctrl_z_counterexample :
  keyCodes.getLabel examples.ctrlZ = "Ctrl+Z"
  /\ exists m,
       map IKeybindingItemEntry.keybindingMatches
           (examples.search platform.Windows examples.ctrlZ "ctrl+z") = [Some m]
       /\ flagsOf (firstPart m) = [true; true; true; true; true]
       /\ flagsOf (firstPart m) <> [false; true; false; false; true]
       /\ flagsOf (chordPart m) = [true; true; true; true; true].
Proof.
  split; [reflexivity|]. eexists. split; [vm_compute; reflexivity|].
  repeat split. discriminate.
Qed.

(** C4 (amended).  For the single entry [{command: "editor.action.undo",
    keyCombination: ctrl+z (no chord), label: "Undo", source: Default}], on
    every platform's label styles and whatever the labels of the key
    combination are: the query "undo" returns exactly one result, whose
    commandLabelMatches is the single span [0,4); the query "redo" returns no
    result, unless it is a label of the combination; the query "ctrl+z"
    returns exactly one result, whose keybindingMatches has ctrlKey and
    keyCode alone in the first part and no flag in the chord part when the
    query is neither the accessible nor the display label ignoring case (as
    on macOS), and all five flags in both parts when it is (as with the
    display label "Ctrl+Z"). *)
Theorem example_undo_spec (os : platform.OperatingSystem) (label ariaLabel : string) :
  let ctrlZ := examples.simple label ariaLabel "Z" true false false false in
  (exists m,
     map annotations (examples.search os ctrlZ "undo") = [m]
     /\ KeybindingItemMatches.commandLabelMatches m
        = Some [ {| filters.start := 0; filters.end_ := 4 |} ])
  /\ (~ equalIgnoringCase "redo" ariaLabel -> ~ equalIgnoringCase "redo" label ->
      examples.search os ctrlZ "redo" = [])
  /\ (~ equalIgnoringCase "ctrl+z" ariaLabel -> ~ equalIgnoringCase "ctrl+z" label ->
      exists m,
        map annotations (examples.search os ctrlZ "ctrl+z") = [m]
        /\ KeybindingItemMatches.keybindingMatches m
           = Some {| firstPart := {| ctrlKey := Some true; shiftKey := None;
                                     altKey := None; metaKey := None;
                                     keyCode := Some true |};
                     chordPart := KeybindingItemMatches.noFlags |})
  /\ (equalIgnoringCase "ctrl+z" ariaLabel \/ equalIgnoringCase "ctrl+z" label ->
      exists m,
        map annotations (examples.search os ctrlZ "ctrl+z") = [m]
        /\ KeybindingItemMatches.keybindingMatches m
           = Some {| firstPart := KeybindingItemMatches.allFlags;
                     chordPart := KeybindingItemMatches.allFlags |}).
Proof.
  cbv zeta. unfold examples.search, examples.model.
  split; [|split; [|split]].
  - rewrite fetch_single by discriminate.
    change (strings.trim "undo") with "undo".
    assert (KeybindingItemMatches.commandLabelMatches
              (@matchEntry wordMatchers.model (examples.labels os) "undo"
                 (examples.undo (examples.simple label ariaLabel "Z" true false false false)))
            = Some [ {| filters.start := 0; filters.end_ := 4 |} ]) as L
      by reflexivity.
    unfold anyFieldMatches. rewrite L, orb_true_r. simpl.
    eexists. split; [reflexivity | exact L].
  - intros NA NL. apply map_eq_nil with (f := annotations).
    rewrite fetch_single by discriminate.
    change (strings.trim "redo") with "redo".
    unfold anyFieldMatches, matchEntry, KeybindingItemMatches.new.
    cbn [KeybindingItemMatches.keybindingMatches keybinding examples.undo].
    change (KeybindingsEditorModel.keybindingWordsOf "redo") with ["redo"].
    rewrite (matchesKeybinding_redo os label ariaLabel NA NL).
    reflexivity.
  - intros NA NL. rewrite fetch_single by discriminate.
    change (strings.trim "ctrl+z") with "ctrl+z".
    assert (KeybindingItemMatches.keybindingMatches
              (@matchEntry wordMatchers.model (examples.labels os) "ctrl+z"
                 (examples.undo (examples.simple label ariaLabel "Z" true false false false)))
            = Some {| firstPart := {| ctrlKey := Some true; shiftKey := None;
                                      altKey := None; metaKey := None;
                                      keyCode := Some true |};
                      chordPart := KeybindingItemMatches.noFlags |}) as K
      by (apply (matchesKeybinding_ctrl_z os label ariaLabel NA NL)).
    unfold anyFieldMatches. rewrite K, orb_true_r.
    eexists. split; [reflexivity | exact K].
  - intros E. rewrite fetch_single by discriminate.
    change (strings.trim "ctrl+z") with "ctrl+z".
    assert (KeybindingItemMatches.keybindingMatches
              (@matchEntry wordMatchers.model (examples.labels os) "ctrl+z"
                 (examples.undo (examples.simple label ariaLabel "Z" true false false false)))
            = Some {| firstPart := KeybindingItemMatches.allFlags;
                      chordPart := KeybindingItemMatches.allFlags |}) as K.
    { unfold matchEntry, KeybindingItemMatches.new.
      cbn [KeybindingItemMatches.keybindingMatches keybinding examples.undo].
      unfold KeybindingItemMatches.matchesKeybinding.
      rewrite <- !compareIgnoreCase_zero in E.
      change (keyCodes.getAriaLabel
                (examples.simple label ariaLabel "Z" true false false false))
        with ariaLabel.
      change (keyCodes.getLabel
                (examples.simple label ariaLabel "Z" true false false false))
        with label.
      assert ((strings.compareIgnoreCase "ctrl+z" ariaLabel =? 0)%Z
              || (strings.compareIgnoreCase "ctrl+z" label =? 0)%Z = true) as ->
        by (apply orb_true_iff; now rewrite !Z.eqb_eq).
      reflexivity. }
    unfold anyFieldMatches. rewrite K, orb_true_r.
    eexists. split; [reflexivity | exact K].
Qed.

Lemma example_undo_spec_witness :
  (exists m,
     map annotations (examples.search platform.Windows examples.ctrlZ "undo") = [m]
     /\ KeybindingItemMatches.commandLabelMatches m
        = Some [ {| filters.start := 0; filters.end_ := 4 |} ])
  /\ examples.search platform.Windows examples.ctrlZ "redo" = []
  /\ (exists m,
        map annotations (examples.search platform.Macintosh examples.ctrlZMac "ctrl+z")
        = [m]
        /\ KeybindingItemMatches.keybindingMatches m
           = Some {| firstPart := {| ctrlKey := Some true; shiftKey := None;
                                     altKey := None; metaKey := None;
                                     keyCode := Some true |};
                     chordPart := KeybindingItemMatches.noFlags |})
  /\ (exists m,
        map annotations (examples.search platform.Windows examples.ctrlZ "ctrl+z") = [m]
        /\ KeybindingItemMatches.keybindingMatches m
           = Some {| firstPart := KeybindingItemMatches.allFlags;
                     chordPart := KeybindingItemMatches.allFlags |}).
Proof.
  pose proof (example_undo_spec platform.Windows "Ctrl+Z" "Control+Z")
    as (U & R & _ & F).
  pose proof (example_undo_spec platform.Macintosh "⌃Z" "Control+Z")
    as (_ & _ & K & _).
  split; [exact U|]. split; [|split].
  - apply R; unfold equalIgnoringCase; simpl; discriminate.
  - apply K; unfold equalIgnoringCase; simpl; discriminate.
  - apply F. right. reflexivity.
Defined.

Lemma fetch_spec_witness :
  let this := examples.model platform.Windows examples.ctrlZ in
  let labels := examples.labels platform.Windows in
  (map IKeybindingItemEntry.keybindingItem
       (@KeybindingsEditorModel.fetch wordMatchers.model this "   ")
     = [examples.undo examples.ctrlZ]
   /\ Forall (fun result => annotations result = noFieldMatches)
             (@KeybindingsEditorModel.fetch wordMatchers.model this "   "))
  /\ (map IKeybindingItemEntry.keybindingItem
          (@KeybindingsEditorModel.fetch wordMatchers.model this " undo ")
      = [examples.undo examples.ctrlZ]
      /\ Forall (fun result =>
                   annotations result
                   = @matchEntry wordMatchers.model labels "undo"
                       (IKeybindingItemEntry.keybindingItem result)
                   /\ anyFieldMatches (annotations result) = true)
                (@KeybindingsEditorModel.fetch wordMatchers.model this " undo ")).
Proof.
  cbv zeta. split.
  - apply (@fetch_spec wordMatchers.model
             (examples.model platform.Windows examples.ctrlZ) "   ").
    reflexivity.
  - apply (@fetch_spec wordMatchers.model
             (examples.model platform.Windows examples.ctrlZ) " undo ").
    discriminate.
Defined.

Lemma matches_spec_witness :
  let label (text : string) : filters.IFilter :=
    fun word _ => wordMatchers.matchesWords word text true in
  @KeybindingItemMatches.matches wordMatchers.model "undo" "Undo" (label "Undo") ["undo"]
  = Some (KeybindingItemMatches.filterAndSort [ {| filters.start := 0; filters.end_ := 4 |} ])
  /\ @KeybindingItemMatches.matches wordMatchers.model "un do" "Undo" (label "Undo")
       ["un"; "do"] = None
  /\ @KeybindingItemMatches.matches wordMatchers.model "re un" "Undo Redo"
       (label "Undo Redo") ["re"; "un"]
     = Some (KeybindingItemMatches.filterAndSort
               (concat [ [ {| filters.start := 5; filters.end_ := 7 |} ];
                         [ {| filters.start := 0; filters.end_ := 2 |} ] ])).
Proof.
  cbv zeta. split; [|split].
  - apply (@matches_spec wordMatchers.model "undo" "Undo"
             (fun word _ => wordMatchers.matchesWords word "Undo" true) ["undo"]).
    reflexivity.
  - apply (@matches_spec wordMatchers.model "un do" "Undo"
             (fun word _ => wordMatchers.matchesWords word "Undo" true) ["un"; "do"]).
    + reflexivity.
    + apply Exists_cons_tl, Exists_cons_hd. reflexivity.
  - apply (@matches_spec wordMatchers.model "re un" "Undo Redo"
             (fun word _ => wordMatchers.matchesWords word "Undo Redo" true) ["re"; "un"]).
    + reflexivity.
    + repeat constructor.
Defined.

(** * Further properties *)

(** ** The flags of a key-combination match *)

Lemma bool_eq_iff (a b : bool) : (a = true <-> b = true) -> a = b.
Proof.
  destruct a, b; intros [F B]; try reflexivity.
  - symmetry. now apply F.
  - now apply B.
Qed.

Lemma matchPart_flag labels part match_ word flag :
  flagOf flag (snd (KeybindingItemMatches.matchPart labels part match_ word))
  = flagOf flag match_ || checkOf flag labels part word.
Proof.
  destruct flag; simpl; matchPart_cases labels part word.
Qed.

Lemma matchWord_flags labels firstPart chordPart words flag :
  forall matchedWords firstPartMatch chordPartMatch,
  let final := fold_left (KeybindingItemMatches.matchWord labels firstPart chordPart)
                 words (matchedWords, firstPartMatch, chordPartMatch) in
  flagOf flag (snd (fst final))
    = flagOf flag firstPartMatch || existsb (checkOf flag labels firstPart) words
  /\ flagOf flag (snd final)
    = flagOf flag chordPartMatch || existsb (checkOf flag labels chordPart) words.
Proof.
  induction words as [|word words IH]; intros matchedWords firstPartMatch chordPartMatch;
    cbv zeta; simpl.
  - now rewrite !orb_false_r.
  - pose proof (matchPart_flag labels firstPart firstPartMatch word flag) as F.
    pose proof (matchPart_flag labels chordPart chordPartMatch word flag) as C.
    destruct (KeybindingItemMatches.matchPart labels firstPart firstPartMatch word)
      as [firstPartMatched firstPartMatch'].
    destruct (KeybindingItemMatches.matchPart labels chordPart chordPartMatch word)
      as [chordPartMatched chordPartMatch'].
    simpl in F, C.
    destruct (IH (if firstPartMatched || chordPartMatched
                  then matchedWords ++ [word] else matchedWords)
                 firstPartMatch' chordPartMatch') as [IF IC].
    rewrite IF, IC, F, C. now rewrite !orb_assoc.
Qed.

Lemma wordMatchesPart_flags labels part word :
  wordMatchesPart labels part word
  = existsb (fun flag => checkOf flag labels part word) [Meta; Ctrl; Shift; Alt; KeyCode].
Proof. unfold wordMatchesPart. simpl. now rewrite orb_false_r, !orb_assoc. Qed.

Lemma hasAnyMatch_flags m :
  KeybindingItemMatches.hasAnyMatch m
  = existsb (fun flag => flagOf flag m) [Meta; Ctrl; Shift; Alt; KeyCode].
Proof.
  unfold KeybindingItemMatches.hasAnyMatch. simpl.
  destruct (flagSet (altKey m)), (flagSet (ctrlKey m)), (flagSet (metaKey m)),
           (flagSet (shiftKey m)), (flagSet (keyCode m)); reflexivity.
Qed.

Lemma existsb_eq {A : Type} (f g : A -> bool) (l : list A) :
  (forall a, f a = g a) -> existsb f l = existsb g l.
Proof. intros E. induction l as [|a l IH]; simpl; [reflexivity | now rewrite E, IH]. Qed.

Lemma existsb_swap {A B : Type} (p : A -> B -> bool) (l : list A) (k : list B) :
  existsb (fun a => existsb (p a) k) l = existsb (fun b => existsb (fun a => p a b) l) k.
Proof.
  apply bool_eq_iff. rewrite !existsb_exists. split.
  - intros (a & Ia & E). apply existsb_exists in E as (b & Ib & E).
    exists b. split; [exact Ib|]. apply existsb_exists. now exists a.
  - intros (b & Ib & E). apply existsb_exists in E as (a & Ia & E).
    exists a. split; [exact Ia|]. apply existsb_exists. now exists b.
Qed.

(** After the loop over the key-words, a part has a flag set exactly when
    some word matched it on that flag; so it has some flag set exactly when
    some word matched it at all. *)
Lemma matchWord_hasAnyMatch labels firstPart chordPart words :
  let final := fold_left (KeybindingItemMatches.matchWord labels firstPart chordPart)
                 words ([], KeybindingItemMatches.noFlags, KeybindingItemMatches.noFlags) in
  KeybindingItemMatches.hasAnyMatch (snd (fst final))
    = existsb (wordMatchesPart labels firstPart) words
  /\ KeybindingItemMatches.hasAnyMatch (snd final)
    = existsb (wordMatchesPart labels chordPart) words.
Proof.
  cbv zeta. rewrite !hasAnyMatch_flags.
  split.
  - rewrite (existsb_eq (wordMatchesPart labels firstPart) _ words
               (wordMatchesPart_flags labels firstPart)).
    rewrite existsb_swap. apply existsb_eq. intros flag.
    now rewrite (proj1 (matchWord_flags labels firstPart chordPart words flag [] _ _));
      destruct flag.
  - rewrite (existsb_eq (wordMatchesPart labels chordPart) _ words
               (wordMatchesPart_flags labels chordPart)).
    rewrite existsb_swap. apply existsb_eq. intros flag.
    now rewrite (proj2 (matchWord_flags labels firstPart chordPart words flag [] _ _));
      destruct flag.
Qed.

Lemma filter_length_all {A : Type} (p : A -> bool) (l : list A) :
  List.length (List.filter p l) = List.length l <-> forallb p l = true.
Proof.
  induction l as [|a l IH]; simpl; [tauto|].
  destruct (p a) eqn:P; simpl.
  - rewrite <- IH. split; intros E; lia.
  - pose proof (filter_length_le p l). split; [lia | discriminate].
Qed.

(** Off the fast path, [matchesKeybinding] is decided by the loop alone. *)
Lemma matchesKeybinding_loop labels keybinding query words :
  ~ isFullLabel keybinding query ->
  KeybindingItemMatches.matchesKeybinding labels keybinding query words
  = let firstPart := fst (keyCodes.getParts keybinding) in
    let chordPart := snd (keyCodes.getParts keybinding) in
    let final := fold_left (KeybindingItemMatches.matchWord labels firstPart chordPart)
                   words ([], KeybindingItemMatches.noFlags, KeybindingItemMatches.noFlags) in
    if forallb (fun word => wordMatchesPart labels firstPart word
                            || wordMatchesPart labels chordPart word) words
       && (existsb (wordMatchesPart labels firstPart) words
           || existsb (wordMatchesPart labels chordPart) words)
    then Some {| firstPart := snd (fst final); chordPart := snd final |}
    else None.
Proof.
  intros N. unfold isFullLabel in N. rewrite <- !compareIgnoreCase_zero in N.
  unfold KeybindingItemMatches.matchesKeybinding.
  destruct (Z.eqb_spec (strings.compareIgnoreCase query (keyCodes.getAriaLabel keybinding)) 0);
    [tauto|].
  destruct (Z.eqb_spec (strings.compareIgnoreCase query (keyCodes.getLabel keybinding)) 0);
    [tauto|].
  simpl. destruct (keyCodes.getParts keybinding) as [firstPart chordPart]. simpl.
  pose proof (matchWord_matchedWords labels firstPart chordPart words []
                KeybindingItemMatches.noFlags KeybindingItemMatches.noFlags) as M.
  destruct (matchWord_hasAnyMatch labels firstPart chordPart words) as [HF HC].
  cbv zeta in HF, HC.
  destruct (fold_left _ words _) as [[matchedWords firstPartMatch] chordPartMatch].
  simpl in M, HF, HC. subst matchedWords. rewrite HF, HC.
  pose proof (filter_length_all
                (fun word => wordMatchesPart labels firstPart word
                             || wordMatchesPart labels chordPart word) words) as L.
  destruct (forallb _ words).
  - rewrite (proj2 L eq_refl), Nat.eqb_refl. reflexivity.
  - destruct (Nat.eqb_spec
                (List.length (List.filter
                   (fun word => wordMatchesPart labels firstPart word
                                || wordMatchesPart labels chordPart word) words))
                (List.length words)) as [E|E]; [|reflexivity].
    apply L in E. discriminate.
Qed.

(** X1.  When the query is not a full label of the key combination and
    [matchesKeybinding] answers with a match, a flag is set in the first part
    (in the chord part) exactly when some key-word passes the check of that
    flag on the first part (on the chord part): the flags are the union over
    the words, nothing more and nothing less. *)
Theorem matchesKeybinding_flags (labels : ModifierLabels)
    (keybinding : ResolvedKeybinding) (query : string) (words : list string)
    (m : KeybindingMatches) (flag : Flag) :
  ~ isFullLabel keybinding query ->
  KeybindingItemMatches.matchesKeybinding labels keybinding query words = Some m ->
  flagOf flag (firstPart m)
    = existsb (checkOf flag labels (fst (keyCodes.getParts keybinding))) words
  /\ flagOf flag (chordPart m)
    = existsb (checkOf flag labels (snd (keyCodes.getParts keybinding))) words.
Proof.
  intros N E. rewrite (matchesKeybinding_loop _ _ _ _ N) in E. cbv zeta in E.
  destruct (_ && _) in E; [|discriminate]. injection E as <-. simpl.
  destruct (matchWord_flags labels (fst (keyCodes.getParts keybinding))
              (snd (keyCodes.getParts keybinding)) words flag []
              KeybindingItemMatches.noFlags KeybindingItemMatches.noFlags) as [F C].
  cbv zeta in F, C. rewrite F, C. now destruct flag.
Qed.

Lemma matchesKeybinding_flags_witness :
  let m := {| firstPart := {| ctrlKey := Some true; shiftKey := None; altKey := None;
                              metaKey := None; keyCode := Some true |};
              chordPart := KeybindingItemMatches.noFlags |} in
  flagOf KeyCode (firstPart m)
    = existsb (checkOf KeyCode (examples.labels platform.Windows)
                 (fst (keyCodes.getParts examples.ctrlEscape))) ["ctrl"; "esc"]
  /\ flagOf KeyCode (chordPart m)
    = existsb (checkOf KeyCode (examples.labels platform.Windows)
                 (snd (keyCodes.getParts examples.ctrlEscape))) ["ctrl"; "esc"].
Proof.
  cbv zeta.
  apply (matchesKeybinding_flags (examples.labels platform.Windows)
           examples.ctrlEscape "ctrl+esc" ["ctrl"; "esc"]).
  - unfold isFullLabel, equalIgnoringCase. simpl. intros [E|E]; discriminate.
  - reflexivity.
Defined.

(** X2.  When the query is not a full label of the key combination,
    [matchesKeybinding] answers with a match exactly when there is at least
    one key-word and every key-word matches the first part or the chord part
    on some flag; an empty list of key-words never matches. *)
Theorem matchesKeybinding_matches_iff (labels : ModifierLabels)
    (keybinding : ResolvedKeybinding) (query : string) (words : list string) :
  ~ isFullLabel keybinding query ->
  KeybindingItemMatches.matchesKeybinding labels keybinding query words <> None
  <-> words <> []
      /\ Forall (fun word =>
                   wordMatchesPart labels (fst (keyCodes.getParts keybinding)) word = true
                   \/ wordMatchesPart labels (snd (keyCodes.getParts keybinding)) word = true)
                words.
Proof.
  intros N. rewrite (matchesKeybinding_loop _ _ _ _ N). cbv zeta.
  set (firstPart := fst (keyCodes.getParts keybinding)).
  set (chordPart := snd (keyCodes.getParts keybinding)).
  assert (forallb (fun word => wordMatchesPart labels firstPart word
                               || wordMatchesPart labels chordPart word) words = true
          <-> Forall (fun word => wordMatchesPart labels firstPart word = true
                                  \/ wordMatchesPart labels chordPart word = true) words)
    as A.
  { rewrite forallb_forall, List.Forall_forall.
    split; intros F word I; specialize (F word I); now apply orb_true_iff. }
  destruct (forallb _ words) eqn:All; simpl.
  - destruct words as [|word words]; simpl.
    + split; [congruence | now intros [? _]].
    + simpl in All. apply andb_true_iff in All as [W _].
      apply orb_true_iff in W.
      assert (wordMatchesPart labels firstPart word
              || existsb (wordMatchesPart labels firstPart) words
              || (wordMatchesPart labels chordPart word
                  || existsb (wordMatchesPart labels chordPart) words) = true) as ->
        by (destruct W as [-> | ->]; simpl; now rewrite ?orb_true_r).
      split; [intros _ | discriminate].
      split; [discriminate | now apply A].
  - split; [congruence|]. intros [_ F]. apply A in F. discriminate.
Qed.

Lemma matchesKeybinding_matches_iff_witness :
  KeybindingItemMatches.matchesKeybinding (examples.labels platform.Windows)
    examples.ctrlEscape "ctrl+esc" ["ctrl"; "esc"] <> None
  <-> ["ctrl"; "esc"] <> []
      /\ Forall (fun word =>
                   wordMatchesPart (examples.labels platform.Windows)
                     (fst (keyCodes.getParts examples.ctrlEscape)) word = true
                   \/ wordMatchesPart (examples.labels platform.Windows)
                        (snd (keyCodes.getParts examples.ctrlEscape)) word = true)
                ["ctrl"; "esc"].
Proof.
  apply matchesKeybinding_matches_iff.
  unfold isFullLabel, equalIgnoringCase. simpl. intros [E|E]; discriminate.
Defined.

(** ** The case of the query *)

Lemma toLowerCaseChar_idem c :
  strings.toLowerCaseChar (strings.toLowerCaseChar c) = strings.toLowerCaseChar c.
Proof. destruct c as [[] [] [] [] [] [] [] []]; reflexivity. Qed.

Lemma toLowerCase_idem s :
  strings.toLowerCase (strings.toLowerCase s) = strings.toLowerCase s.
Proof.
  induction s as [|c s IH]; simpl; [reflexivity|].
  now rewrite toLowerCaseChar_idem, IH.
Qed.

Lemma toLowerCase_empty s : strings.toLowerCase s = "" <-> s = "".
Proof. destruct s; simpl; split; congruence. Qed.

Lemma compareIgnoreCase_lower a b :
  (strings.compareIgnoreCase (strings.toLowerCase a) b =? 0)%Z
  = (strings.compareIgnoreCase a b =? 0)%Z
  /\ (strings.compareIgnoreCase a (strings.toLowerCase b) =? 0)%Z
     = (strings.compareIgnoreCase a b =? 0)%Z.
Proof.
  split; apply bool_eq_iff; rewrite !Z.eqb_eq, !compareIgnoreCase_zero;
    unfold equalIgnoringCase; now rewrite toLowerCase_idem.
Qed.

Lemma matchesPrefix_lower label word :
  isSome (filters.matchesPrefix label (strings.toLowerCase word))
  = isSome (filters.matchesPrefix label word).
Proof.
  apply bool_eq_iff. rewrite !matchesPrefix_isSome.
  unfold prefixIgnoringCase. rewrite toLowerCase_idem, toLowerCase_empty. tauto.
Qed.

Lemma matchesContiguousSubString_lower word text :
  isSome (filters.matchesContiguousSubString (strings.toLowerCase word) text)
  = isSome (filters.matchesContiguousSubString word text).
Proof.
  apply bool_eq_iff. rewrite !matchesContiguousSubString_isSome.
  unfold occursIgnoringCase. now rewrite toLowerCase_idem.
Qed.

Lemma checkOf_lower flag labels part word :
  checkOf flag labels part (strings.toLowerCase word) = checkOf flag labels part word.
Proof.
  destruct part as [p|]; [|now destruct flag].
  destruct flag; simpl;
    rewrite ?matchesPrefix_lower, ?toLowerCase_length,
            ?(proj2 (compareIgnoreCase_lower _ _)), ?matchesContiguousSubString_lower;
    reflexivity.
Qed.

Lemma matchPart_lower labels part match_ word :
  KeybindingItemMatches.matchPart labels part match_ (strings.toLowerCase word)
  = KeybindingItemMatches.matchPart labels part match_ word.
Proof.
  unfold KeybindingItemMatches.matchPart.
  rewrite (checkOf_lower Meta labels part word : KeybindingItemMatches.matchesMetaModifier _ _ _ = _).
  rewrite (checkOf_lower Ctrl labels part word : KeybindingItemMatches.matchesCtrlModifier _ _ _ = _).
  rewrite (checkOf_lower Shift labels part word : KeybindingItemMatches.matchesShiftModifier _ _ _ = _).
  rewrite (checkOf_lower Alt labels part word : KeybindingItemMatches.matchesAltModifier _ _ _ = _).
  rewrite (checkOf_lower KeyCode labels part word : KeybindingItemMatches.matchesKeyCode _ _ = _).
  reflexivity.
Qed.

Lemma matchWord_lower labels firstPart chordPart words :
  forall matchedWords matchedWords' firstPartMatch chordPartMatch,
  List.length matchedWords = List.length matchedWords' ->
  let final := fold_left (KeybindingItemMatches.matchWord labels firstPart chordPart)
                 words (matchedWords, firstPartMatch, chordPartMatch) in
  let final' := fold_left (KeybindingItemMatches.matchWord labels firstPart chordPart)
                  (map strings.toLowerCase words)
                  (matchedWords', firstPartMatch, chordPartMatch) in
  List.length (fst (fst final')) = List.length (fst (fst final))
  /\ snd (fst final') = snd (fst final)
  /\ snd final' = snd final.
Proof.
  induction words as [|word words IH];
    intros matchedWords matchedWords' firstPartMatch chordPartMatch L; cbv zeta; simpl.
  - auto.
  - rewrite !matchPart_lower.
    destruct (KeybindingItemMatches.matchPart labels firstPart firstPartMatch word)
      as [firstPartMatched firstPartMatch'].
    destruct (KeybindingItemMatches.matchPart labels chordPart chordPartMatch word)
      as [chordPartMatched chordPartMatch'].
    apply IH. destruct (firstPartMatched || chordPartMatched); [|exact L].
    rewrite !length_app. simpl. lia.
Qed.

(** X3.  Matching a key combination does not depend on the case of the
    query: the query and its key-words folded to lower case give the same
    answer, flags included. *)
Theorem matchesKeybinding_ignores_case (labels : ModifierLabels)
    (keybinding : ResolvedKeybinding) (query : string) (words : list string) :
  KeybindingItemMatches.matchesKeybinding labels keybinding
    (strings.toLowerCase query) (map strings.toLowerCase words)
  = KeybindingItemMatches.matchesKeybinding labels keybinding query words.
Proof.
  unfold KeybindingItemMatches.matchesKeybinding.
  rewrite !(proj1 (compareIgnoreCase_lower _ _)).
  case_if; [reflexivity|].
  destruct (keyCodes.getParts keybinding) as [firstPart chordPart].
  destruct (matchWord_lower labels firstPart chordPart words [] []
              KeybindingItemMatches.noFlags KeybindingItemMatches.noFlags eq_refl)
    as (L & F & C).
  cbv zeta in L, F, C.
  destruct (fold_left _ (map strings.toLowerCase words) _)
    as [[matchedWords' firstPartMatch'] chordPartMatch'].
  destruct (fold_left _ words _) as [[matchedWords firstPartMatch] chordPartMatch].
  simpl in L, F, C. subst. now rewrite L, length_map.
Qed.

(** ** More on the post-processing of spans *)

Lemma filterAndSort_Permutation matches :
  Permutation (KeybindingItemMatches.filterAndSort matches)
    (List.filter (fun match_ =>
                    negb (existsb (fun m => KeybindingItemMatches.covers m match_) matches))
                 (arrays.distinct matches KeybindingItemMatches.spanKey)).
Proof. apply sort_Permutation. Qed.

Lemma filterAndSort_In matches x :
  In x (KeybindingItemMatches.filterAndSort matches)
  <-> In x matches /\ ~ covered matches x.
Proof.
  split.
  - intros I. eapply Permutation_in in I; [|apply filterAndSort_Permutation].
    apply filter_In in I as [I U].
    apply distinct_In in I; [|exact spanKey_inj].
    apply negb_true_iff, uncovered_iff in U. easy.
  - intros [I U].
    eapply Permutation_in; [symmetry; apply filterAndSort_Permutation|].
    apply filter_In. split.
    + apply distinct_In; [exact spanKey_inj | exact I].
    + now apply negb_true_iff, uncovered_iff.
Qed.

Lemma filterAndSort_NoDup matches :
  List.NoDup (KeybindingItemMatches.filterAndSort matches).
Proof.
  eapply Permutation_NoDup; [symmetry; apply filterAndSort_Permutation|].
  apply List.NoDup_filter, distinctFrom_NoDup.
Qed.

Lemma StronglySorted_refine {A : Type} (R R' : A -> A -> Prop) (l : list A) :
  StronglySorted R l -> List.NoDup l ->
  (forall a b, In a l -> In b l -> a <> b -> R a b -> R' a b) ->
  StronglySorted R' l.
Proof.
  induction 1 as [|a l SS IH F]; intros ND Imp; [constructor|].
  inversion ND as [|? ? NI ND']; subst.
  constructor.
  - apply IH; [exact ND'|]. intros x y Ix Iy. apply Imp; now right.
  - rewrite List.Forall_forall in F |- *. intros b Ib.
    apply Imp; [now left | now right | | now apply F].
    intros ->. contradiction.
Qed.

(** X4.  In the result of [filterAndSort] the start offsets strictly
    increase, and so do the end offsets: of two kept spans the later one
    starts later and ends later (the spans may still overlap). *)
Theorem filterAndSort_strictly_increasing (matches : list filters.IMatch) :
  StronglySorted (fun a b => filters.start a < filters.start b
                             /\ filters.end_ a < filters.end_ b)
                 (KeybindingItemMatches.filterAndSort matches).
Proof.
  apply (StronglySorted_refine (fun a b => filters.start a <= filters.start b)).
  - apply (sort_ascending filters.start).
  - apply filterAndSort_NoDup.
  - intros a b Ia Ib D L.
    apply filterAndSort_In in Ia as [Ia Ua], Ib as [Ib Ub].
    assert (~ (filters.start a <= filters.start b /\ filters.end_ b <= filters.end_ a)) as NA
      by (intros [? ?]; apply Ub; exists a; auto).
    assert (~ (filters.start b <= filters.start a /\ filters.end_ a <= filters.end_ b)) as NB
      by (intros [? ?]; apply Ua; exists b; auto).
    lia.
Qed.

Lemma distinctFrom_fixed {T : Type} (keyFn : T -> string) (array : list T) :
  forall seen,
  (forall a b, keyFn a = keyFn b -> a = b) ->
  List.NoDup array -> Forall (fun x => keyFn x ∉ seen) array ->
  arrays.distinctFrom keyFn seen array = array.
Proof.
  induction array as [|e array IH]; intros seen Inj ND F; simpl; [reflexivity|].
  inversion ND as [|? ? NI ND']; subst.
  inversion F as [|? ? Fe F']; subst.
  destruct (decide (keyFn e ∈ seen)) as [S|S]; [contradiction|].
  f_equal. apply IH; [exact Inj | exact ND'|].
  rewrite List.Forall_forall in F' |- *. intros x Ix Hx.
  apply elem_of_union in Hx as [Hx|Hx]; [|now apply (F' x Ix)].
  apply elem_of_singleton, Inj in Hx. subst. contradiction.
Qed.

Lemma filter_fixed {A : Type} (p : A -> bool) (l : list A) :
  Forall (fun x => p x = true) l -> List.filter p l = l.
Proof.
  induction 1 as [|x l P F IH]; simpl; [reflexivity|]. now rewrite P, IH.
Qed.

Lemma insertion_sorted {T : Type} (key : T -> nat) (a : list T) :
  forall acc,
  StronglySorted (fun x y => key x <= key y) a ->
  Forall (fun t => Forall (fun x => key t <= key x) a) acc ->
  fold_left (fun reversedPrefix element =>
               arrays.insertLeft
                 (fun x y => (Z.of_nat (key x) - Z.of_nat (key y))%Z)
                 element reversedPrefix) a acc
  = rev a ++ acc.
Proof.
  induction a as [|x a IH]; intros acc SS F; simpl; [reflexivity|].
  inversion SS as [|? ? SS' Fx]; subst.
  assert (arrays.insertLeft (fun x y => (Z.of_nat (key x) - Z.of_nat (key y))%Z) x acc
          = x :: acc) as ->.
  { destruct acc as [|t acc]; [reflexivity|]. simpl.
    inversion F as [|? ? Ft _]; subst. inversion Ft as [|? ? Ftx _]; subst.
    destruct (Z.ltb_spec 0 (Z.of_nat (key t) - Z.of_nat (key x))); [lia | reflexivity]. }
  rewrite IH; [now rewrite <- app_assoc | exact SS' |].
  constructor; [exact Fx|].
  eapply List.Forall_impl; [|exact F].
  intros t Ft. now inversion Ft.
Qed.

(** A list already sorted by the key is left as it is. *)
Lemma sort_sorted {T : Type} (key : T -> nat) (a : list T) :
  StronglySorted (fun x y => key x <= key y) a ->
  arrays.sort (fun x y => (Z.of_nat (key x) - Z.of_nat (key y))%Z) a = a.
Proof.
  intros SS. unfold arrays.sort.
  rewrite (insertion_sorted key a [] SS); [|constructor].
  now rewrite app_nil_r, rev_involutive.
Qed.

(** A list without duplicates, without covered span and sorted by start is
    a fixed point of [filterAndSort]. *)
Lemma filterAndSort_fixed matches :
  List.NoDup matches ->
  (forall x, In x matches -> ~ covered matches x) ->
  StronglySorted (fun a b => filters.start a <= filters.start b) matches ->
  KeybindingItemMatches.filterAndSort matches = matches.
Proof.
  intros ND U SS. unfold KeybindingItemMatches.filterAndSort, arrays.distinct.
  rewrite distinctFrom_fixed;
    [| exact spanKey_inj | exact ND
     | apply List.Forall_forall; intros; apply not_elem_of_empty].
  rewrite filter_fixed.
  - now apply (sort_sorted filters.start).
  - apply List.Forall_forall. intros x I.
    now apply negb_true_iff, uncovered_iff, U.
Qed.

(** X5.  [filterAndSort] is idempotent: post-processing a post-processed
    list of spans changes nothing. *)
Theorem filterAndSort_idempotent (matches : list filters.IMatch) :
  KeybindingItemMatches.filterAndSort (KeybindingItemMatches.filterAndSort matches)
  = KeybindingItemMatches.filterAndSort matches.
Proof.
  apply filterAndSort_fixed.
  - apply filterAndSort_NoDup.
  - intros x I (m & Im & D & L).
    apply filterAndSort_In in I as [I U], Im as [Im _].
    apply U. now exists m.
  - apply (sort_ascending filters.start).
Qed.

Lemma leading_span (matches : list filters.IMatch) :
  matches <> [] ->
  exists x, In x matches
    /\ forall m, In m matches ->
         filters.start x < filters.start m
         \/ (filters.start x = filters.start m /\ filters.end_ m <= filters.end_ x).
Proof.
  induction matches as [|a l IH]; [congruence|]. intros _.
  destruct l as [|b l].
  - exists a. split; [now left|]. intros m [<-|[]]. lia.
  - destruct IH as (x & Ix & Lx); [discriminate|].
    destruct (lt_dec (filters.start a) (filters.start x)) as [L|L].
    + exists a. split; [now left|].
      intros m [<-|Im]; [lia|]. specialize (Lx m Im). lia.
    + destruct (Nat.eq_dec (filters.start a) (filters.start x)) as [E|E].
      * destruct (le_dec (filters.end_ x) (filters.end_ a)) as [Le|Le].
        -- exists a. split; [now left|].
           intros m [<-|Im]; [lia|]. specialize (Lx m Im). lia.
        -- exists x. split; [now right|].
           intros m [<-|Im]; [lia | now apply Lx].
      * exists x. split; [now right|].
        intros m [<-|Im]; [lia | now apply Lx].
Qed.

(** X6.  [filterAndSort] never empties a list: of a non-empty list of spans
    at least one span is kept (one that starts first and, among those, ends
    last). *)
Theorem filterAndSort_nonempty (matches : list filters.IMatch) :
  matches <> [] -> KeybindingItemMatches.filterAndSort matches <> [].
Proof.
  intros N. destruct (leading_span matches N) as (x & I & L).
  assert (In x (KeybindingItemMatches.filterAndSort matches)) as Ix.
  { apply filterAndSort_In. split; [exact I|].
    intros (m & Im & D & Ls & Le). specialize (L m Im).
    apply D. destruct m, x; simpl in *. f_equal; lia. }
  intros E. rewrite E in Ix. contradiction.
Qed.

Lemma filterAndSort_nonempty_witness :
  KeybindingItemMatches.filterAndSort
    [ {| filters.start := 2; filters.end_ := 3 |};
      {| filters.start := 0; filters.end_ := 5 |} ] <> [].
Proof. apply filterAndSort_nonempty. discriminate. Defined.

(** ** Matching a field by a prefix *)

Lemma filterAndSort_singleton x : KeybindingItemMatches.filterAndSort [x] = [x].
Proof.
  apply filterAndSort_fixed.
  - constructor; [easy | constructor].
  - intros y [<-|[]] (m & [<-|[]] & D & _). congruence.
  - repeat constructor.
Qed.

(** X7.  When the text of a field is not empty and begins with the
    (non-empty) query, ignoring case, [matches] answers with the single span
    [0, length of the query), whatever the word matcher of the field and the
    words of the query are. *)
Theorem matches_prefix `{filters.WordMatchers}
    (searchValue wordToMatchAgainst : string)
    (wordMatchesFilter : filters.IFilter) (words : list string) :
  searchValue <> "" -> wordToMatchAgainst <> "" ->
  prefixIgnoringCase searchValue wordToMatchAgainst ->
  KeybindingItemMatches.matches searchValue wordToMatchAgainst wordMatchesFilter words
  = Some [ {| filters.start := 0; filters.end_ := String.length searchValue |} ].
Proof.
  intros Nq Nt P.
  assert (filters.matchesPrefix searchValue wordToMatchAgainst
          = Some [ {| filters.start := 0; filters.end_ := String.length searchValue |} ])
    as M.
  { unfold filters.matchesPrefix.
    rewrite (proj2 (truthy_nonempty _) Nt). simpl.
    pose proof (prefixIgnoringCase_length _ _ P) as L.
    destruct (Nat.ltb_spec (String.length wordToMatchAgainst) (String.length searchValue));
      [lia|].
    rewrite (proj2 (beginsWithIgnoreCase_prefix _ _) P).
    destruct searchValue; [congruence | reflexivity]. }
  unfold KeybindingItemMatches.matches, KeybindingItemMatches.wordFilter. simpl.
  rewrite M. now rewrite filterAndSort_singleton.
Qed.

Lemma matches_prefix_witness :
  @KeybindingItemMatches.matches wordMatchers.model "und" "Undo"
    (fun word _ => wordMatchers.matchesWords word "Undo" true) ["und"]
  = Some [ {| filters.start := 0; filters.end_ := 3 |} ].
Proof.
  apply (@matches_prefix wordMatchers.model "und" "Undo").
  - discriminate.
  - discriminate.
  - now exists "o".
Defined.

(** ** Surrounding white space *)

Lemma trimEnd_idem s : strings.trimEnd (strings.trimEnd s) = strings.trimEnd s.
Proof.
  induction s as [|c s IH]; simpl; [reflexivity|].
  destruct (strings.trimEnd s) as [|d e] eqn:E.
  - destruct (strings.isWhiteSpace c) eqn:W; simpl; [reflexivity | now rewrite W].
  - simpl in *. now rewrite IH.
Qed.

Lemma trimEnd_head c s :
  strings.isWhiteSpace c = false ->
  exists r, strings.trimEnd (String c s) = String c r.
Proof.
  intros W. simpl. destruct (strings.trimEnd s) as [|d e].
  - rewrite W. now exists "".
  - now exists (String d e).
Qed.

Lemma trimStart_head s :
  strings.trimStart s = ""
  \/ exists c r, strings.trimStart s = String c r /\ strings.isWhiteSpace c = false.
Proof.
  induction s as [|c s IH]; simpl; [now left|].
  destruct (strings.isWhiteSpace c) eqn:W; [exact IH|].
  right. now exists c, s.
Qed.

Lemma trim_idempotent s : strings.trim (strings.trim s) = strings.trim s.
Proof.
  unfold strings.trim.
  destruct (trimStart_head s) as [E|(c & r & E & W)]; rewrite E.
  - reflexivity.
  - destruct (trimEnd_head c r W) as [r' E']. rewrite E'.
    simpl strings.trimStart. rewrite W, <- E'. apply trimEnd_idem.
Qed.

(** X8.  [fetch] ignores white space around the query: searching for a
    query and searching for the trimmed query give the same results. *)
Theorem fetch_trimmed `{filters.WordMatchers}
    (this : KeybindingsEditorModel.t) (query : string) :
  KeybindingsEditorModel.fetch this (strings.trim query)
  = KeybindingsEditorModel.fetch this query.
Proof.
  unfold KeybindingsEditorModel.fetch. now rewrite trim_idempotent.
Qed.

(** ** The comparison of entries *)

Lemma truthy_empty s : strings.truthy s = false <-> s = "".
Proof.
  unfold strings.truthy. rewrite negb_false_iff. apply String.eqb_eq.
Qed.

(** X9.  With a locale order that is antisymmetric, swapping the two
    entries negates the result of [compareKeybindingData], except when the
    entries agree on having a key combination, on the label, on the command
    and on being default. *)
Theorem compareKeybindingData_antisymmetric (localeCompare : string -> string -> Z)
    (a b : IKeybindingItem) :
  (forall x y, localeCompare y x = (- localeCompare x y)%Z) ->
  ~ ((keybinding a = None <-> keybinding b = None)
     /\ commandLabel a = commandLabel b
     /\ command a = command b
     /\ resolvedKeybindingItem.isDefault (keybindingItem a)
        = resolvedKeybindingItem.isDefault (keybindingItem b)) ->
  KeybindingsEditorModel.compareKeybindingData localeCompare b a
  = (- KeybindingsEditorModel.compareKeybindingData localeCompare a b)%Z.
Proof.
  intros Anti N. unfold KeybindingsEditorModel.compareKeybindingData.
  rewrite (Anti (commandLabel a) (commandLabel b)), (Anti (command a) (command b)).
  rewrite (String.eqb_sym (commandLabel b)), (String.eqb_sym (command b)).
  destruct (String.eqb_spec (commandLabel a) (commandLabel b)) as [El|El];
  destruct (String.eqb_spec (command a) (command b)) as [Ec|Ec];
  destruct (keybinding a) as [ka|], (keybinding b) as [kb|];
  destruct (strings.truthy (commandLabel a)) eqn:La,
           (strings.truthy (commandLabel b)) eqn:Lb;
  destruct (resolvedKeybindingItem.isDefault (keybindingItem a)),
           (resolvedKeybindingItem.isDefault (keybindingItem b));
  simpl; try reflexivity; try lia;
  try (exfalso; apply N; repeat split; congruence);
  try (exfalso; rewrite El in La; congruence);
  try (exfalso; apply truthy_empty in La, Lb; congruence).
Qed.

Lemma compareKeybindingData_antisymmetric_witness :
  KeybindingsEditorModel.compareKeybindingData
    (fun x y => (strings.compareIgnoreCase x y - strings.compareIgnoreCase y x)%Z)
    (examples.entry None "Apple" "fruit.apple" true)
    (examples.entry None "Pear" "fruit.pear" true)
  = (- KeybindingsEditorModel.compareKeybindingData
         (fun x y => (strings.compareIgnoreCase x y - strings.compareIgnoreCase y x)%Z)
         (examples.entry None "Pear" "fruit.pear" true)
         (examples.entry None "Apple" "fruit.apple" true))%Z.
Proof.
  apply compareKeybindingData_antisymmetric.
  - intros x y. lia.
  - intros (_ & E & _). discriminate.
Defined.

(** X10.  Two entries that agree on having a key combination, on the label
    and on the command are ordered by the first argument alone: the result is
    1 when the first entry is a default one and -1 otherwise, whatever the
    second entry is.  So no entry compares equal to itself, and two default
    entries of one command each sort after the other. *)
Theorem compareKeybindingData_same_command (localeCompare : string -> string -> Z)
    (a b : IKeybindingItem) :
  (keybinding a = None <-> keybinding b = None) ->
  commandLabel a = commandLabel b ->
  command a = command b ->
  KeybindingsEditorModel.compareKeybindingData localeCompare a b
  = if resolvedKeybindingItem.isDefault (keybindingItem a) then 1%Z else (-1)%Z.
Proof.
  intros K El Ec. unfold KeybindingsEditorModel.compareKeybindingData.
  rewrite <- El, <- Ec, !String.eqb_refl.
  destruct (keybinding a) as [ka|], (keybinding b) as [kb|];
  destruct (strings.truthy (commandLabel a));
  simpl; try reflexivity; exfalso; destruct K as [K1 K2];
    try (specialize (K1 eq_refl); discriminate);
    try (specialize (K2 eq_refl); discriminate).
Qed.

Lemma compareKeybindingData_same_command_witness :
  let a := examples.entry None "Apple" "fruit.apple" false in
  KeybindingsEditorModel.compareKeybindingData strings.compareIgnoreCase a a = (-1)%Z.
Proof.
  cbv zeta.
  apply (compareKeybindingData_same_command strings.compareIgnoreCase
           (examples.entry None "Apple" "fruit.apple" false)
           (examples.entry None "Apple" "fruit.apple" false));
    easy.
Defined.

(** ** More on rebuilding the snapshot *)

Section Snapshot.
Context (services : Services).

Lemma addBound_items editorActions keybindings : forall items boundCommands,
  fst (fold_left (KeybindingsEditorModel.addBound services editorActions)
                 keybindings (items, boundCommands))
  = items ++
    flat_map (fun keybinding =>
                fst (KeybindingsEditorModel.addBound services editorActions
                       ([], ∅) keybinding))
             keybindings.
Proof.
  induction keybindings as [|k keybindings IH]; intros items boundCommands; simpl.
  - now rewrite app_nil_r.
  - destruct (resolvedKeybindingItem.command k) as [cmd|]; [|apply IH].
    destruct (strings.truthy cmd); [|apply IH].
    rewrite IH. simpl. now rewrite <- app_assoc.
Qed.

Lemma addBound_values editorActions keybindings : forall items boundCommands c v,
  (forall c v, boundCommands !! c = Some v -> v = true) ->
  snd (fold_left (KeybindingsEditorModel.addBound services editorActions)
                 keybindings (items, boundCommands)) !! c = Some v ->
  v = true.
Proof.
  induction keybindings as [|k keybindings IH]; intros items boundCommands c v T; simpl.
  - apply T.
  - destruct (resolvedKeybindingItem.command k) as [cmd|]; [|now apply IH].
    destruct (strings.truthy cmd); [|now apply IH].
    apply IH. intros c' v'.
    destruct (decide (cmd = c')) as [->|N].
    + rewrite lookup_insert_eq. congruence.
    + rewrite lookup_insert_ne by exact N. apply T.
Qed.

(** The entries of the snapshot, before the sort. *)
Lemma collect_entries :
  KeybindingsEditorModel.collect services
  = flat_map (fun keybinding =>
                fst (KeybindingsEditorModel.addBound services
                       (KeybindingsEditorModel.editorActionsOf services)
                       ([], ∅) keybinding))
             (getKeybindings services)
    ++ flat_map (KeybindingsEditorModel.addUnbound services
                   (KeybindingsEditorModel.editorActionsOf services)
                   (KeybindingsEditorModel.commandsWithDefaultKeybindings services) [])
                (getAllUnboundCommands services
                   (snd (KeybindingsEditorModel.bound services))).
Proof.
  unfold KeybindingsEditorModel.collect.
  pose proof (addBound_items (KeybindingsEditorModel.editorActionsOf services)
                (getKeybindings services) [] ∅) as B.
  fold (KeybindingsEditorModel.bound services) in B.
  destruct (KeybindingsEditorModel.bound services) as [items boundCommands].
  simpl in B |- *. subst items. apply addUnbound_fold.
Qed.

End Snapshot.

(** X11.  The map of bound commands that [resolve] hands to the keybinding
    resolver holds exactly the non-empty commands of the current keybindings,
    each with the value [true]: a command is looked up as [true] when some
    current keybinding has it, and is absent otherwise. *)
Theorem resolve_boundCommands (services : Services) (c : string) :
  let boundCommands := snd (KeybindingsEditorModel.bound services) in
  let isBound :=
    c <> "" /\ In (Some c) (map resolvedKeybindingItem.command (getKeybindings services)) in
  (boundCommands !! c = Some true <-> isBound)
  /\ (boundCommands !! c = None <-> ~ isBound).
Proof.
  cbv zeta.
  pose proof (bound_boundCommands services c) as B.
  split; [exact B|].
  destruct (snd (KeybindingsEditorModel.bound services) !! c) as [v|] eqn:L.
  - assert (v = true) as ->.
    { unfold KeybindingsEditorModel.bound in L.
      eapply addBound_values; [|exact L].
      intros c' v'. rewrite lookup_empty. discriminate. }
    split; [discriminate|]. intros N. exfalso. now apply N, B.
  - split; [|reflexivity]. intros _ I. apply B in I. discriminate.
Qed.

(** X12.  The rebuilt snapshot has one entry per current keybinding with a
    non-empty command and one entry per unbound command the resolver reports:
    keybindings without a command add nothing, and nothing else is added or
    lost. *)
Theorem resolve_length (services : Services) (this : KeybindingsEditorModel.t) :
  List.length (KeybindingsEditorModel._keybindingItems
                 (KeybindingsEditorModel.resolve services this))
  = List.length (List.filter hasCommand (getKeybindings services))
    + List.length (getAllUnboundCommands services
                     (snd (KeybindingsEditorModel.bound services))).
Proof.
  unfold KeybindingsEditorModel.resolve. simpl.
  rewrite (Permutation_length (sort_Permutation _ _)), collect_entries, length_app.
  f_equal.
  - induction (getKeybindings services) as [|k ks IH]; [reflexivity|].
    cbn [flat_map List.filter]. rewrite length_app, IH.
    unfold hasCommand, KeybindingsEditorModel.addBound.
    destruct (resolvedKeybindingItem.command k) as [cmd|]; [|reflexivity].
    now destruct (strings.truthy cmd).
  - induction (getAllUnboundCommands services _) as [|c cs IH]; [reflexivity|].
    cbn [flat_map]. rewrite length_app, IH. reflexivity.
Qed.

(** X13.  Every entry of the rebuilt snapshot agrees with the keybinding
    item it was built from: its key combination is the item's, its command is
    the item's command, its when-condition is the item's (empty when the item
    has none), and its source is "Default" when the item is a default one and
    "User" otherwise. *)
Theorem resolve_entries_consistent (services : Services)
    (this : KeybindingsEditorModel.t) :
  Forall (fun entry =>
            keybinding entry
              = resolvedKeybindingItem.resolvedKeybinding (keybindingItem entry)
            /\ resolvedKeybindingItem.command (keybindingItem entry)
               = Some (command entry)
            /\ when entry
               = match resolvedKeybindingItem.when (keybindingItem entry) with
                 | Some expr => expr
                 | None => ""
                 end
            /\ source entry
               = if resolvedKeybindingItem.isDefault (keybindingItem entry)
                 then "Default" else "User")
         (KeybindingsEditorModel._keybindingItems
            (KeybindingsEditorModel.resolve services this)).
Proof.
  unfold KeybindingsEditorModel.resolve. simpl.
  eapply Permutation_Forall; [symmetry; apply sort_Permutation|].
  rewrite collect_entries. apply Forall_app. split.
  - induction (getKeybindings services) as [|k ks IH]; simpl; [constructor|].
    apply Forall_app. split; [|exact IH].
    destruct (resolvedKeybindingItem.command k) as [cmd|] eqn:C; [|constructor].
    destruct (strings.truthy cmd); [|constructor].
    constructor; [|constructor]. simpl. rewrite C.
    now destruct (resolvedKeybindingItem.isDefault k).
  - induction (getAllUnboundCommands services _) as [|c cs IH]; simpl;
      constructor; [|exact IH].
    simpl. now destruct (negb _).
Qed.

(** ** More on search *)

(** Every result of [fetch] is built from a stored entry, and its six match
    fields are either all absent or those the entry matcher computes for that
    entry and the trimmed query. *)
Lemma fetch_results `{filters.WordMatchers}
    (this : KeybindingsEditorModel.t) (query : string) :
  Forall (fun result =>
            In (IKeybindingItemEntry.keybindingItem result)
               (KeybindingsEditorModel._keybindingItems this)
            /\ (annotations result = noFieldMatches
                \/ annotations result
                   = matchEntry (KeybindingsEditorModel.modifierLabels this)
                       (strings.trim query)
                       (IKeybindingItemEntry.keybindingItem result)))
         (KeybindingsEditorModel.fetch this query).
Proof.
  unfold KeybindingsEditorModel.fetch.
  destruct (strings.truthy (strings.trim query)).
  - pose proof (fetchKeybindingItems_items this (strings.trim query)) as I.
    pose proof (fetchKeybindingItems_annotations this (strings.trim query)) as A.
    rewrite List.Forall_forall in A |- *. intros result R. split.
    + assert (In (IKeybindingItemEntry.keybindingItem result)
                 (map IKeybindingItemEntry.keybindingItem
                      (KeybindingsEditorModel.fetchKeybindingItems this (strings.trim query))))
        as M by now apply in_map.
      rewrite I in M. now apply filter_In in M.
    + right. now apply A.
  - apply Forall_map. apply List.Forall_forall. intros item I. simpl. auto.
Qed.

(** X14.  A field that the stored entry lacks is never annotated: a result
    for an entry without key combination has no keybindingMatches, without
    label no commandLabelMatches, without default label no
    commandDefaultLabelMatches, and without when-condition no whenMatches,
    whatever the query is. *)
Theorem fetch_absent_fields `{filters.WordMatchers}
    (this : KeybindingsEditorModel.t) (query : string) :
  Forall (fun result =>
            let entry := IKeybindingItemEntry.keybindingItem result in
            (keybinding entry = None ->
               IKeybindingItemEntry.keybindingMatches result = None)
            /\ (commandLabel entry = "" ->
               IKeybindingItemEntry.commandLabelMatches result = None)
            /\ (commandDefaultLabel entry = None \/ commandDefaultLabel entry = Some "" ->
               IKeybindingItemEntry.commandDefaultLabelMatches result = None)
            /\ (when entry = "" ->
               IKeybindingItemEntry.whenMatches result = None))
         (KeybindingsEditorModel.fetch this query).
Proof.
  eapply List.Forall_impl; [|apply fetch_results].
  intros result [_ A]. cbv zeta.
  change (IKeybindingItemEntry.keybindingMatches result)
    with (KeybindingItemMatches.keybindingMatches (annotations result)).
  change (IKeybindingItemEntry.commandLabelMatches result)
    with (KeybindingItemMatches.commandLabelMatches (annotations result)).
  change (IKeybindingItemEntry.commandDefaultLabelMatches result)
    with (KeybindingItemMatches.commandDefaultLabelMatches (annotations result)).
  change (IKeybindingItemEntry.whenMatches result)
    with (KeybindingItemMatches.whenMatches (annotations result)).
  destruct A as [-> | ->]; [easy|].
  unfold matchEntry, KeybindingItemMatches.new. simpl.
  repeat split.
  - now intros ->.
  - now intros ->.
  - now intros [-> | ->].
  - now intros ->.
Qed.

Lemma fetch_absent_fields_witness :
  Forall (fun result =>
            IKeybindingItemEntry.keybindingMatches result = None
            /\ IKeybindingItemEntry.commandDefaultLabelMatches result = None
            /\ IKeybindingItemEntry.whenMatches result = None)
         (@KeybindingsEditorModel.fetch wordMatchers.model
            {| KeybindingsEditorModel.modifierLabels := examples.labels platform.Linux;
               KeybindingsEditorModel._keybindingItems :=
                 [examples.entry None "Apple" "fruit.apple" false] |}
            "apple").
Proof.
  pose proof (@fetch_absent_fields wordMatchers.model
                {| KeybindingsEditorModel.modifierLabels := examples.labels platform.Linux;
                   KeybindingsEditorModel._keybindingItems :=
                     [examples.entry None "Apple" "fruit.apple" false] |}
                "apple") as F.
  inversion F as [|result rest (K & _ & D & W) _ E]; subst.
  constructor; [|constructor].
  split; [apply K; reflexivity|].
  split; [apply D; left; reflexivity | apply W; reflexivity].
Defined.

(** X15.  In the default display language no entry of the rebuilt snapshot
    has a default label, so no search result ever carries
    commandDefaultLabelMatches. *)
Theorem resolve_default_language `{filters.WordMatchers} (services : Services)
    (this : KeybindingsEditorModel.t) (query : string) :
  language services = platform.LANGUAGE_DEFAULT ->
  Forall (fun entry => commandDefaultLabel entry = None)
         (KeybindingsEditorModel._keybindingItems
            (KeybindingsEditorModel.resolve services this))
  /\ Forall (fun result => IKeybindingItemEntry.commandDefaultLabelMatches result = None)
            (KeybindingsEditorModel.fetch
               (KeybindingsEditorModel.resolve services this) query).
Proof.
  intros L.
  assert (Forall (fun entry => commandDefaultLabel entry = None)
                 (KeybindingsEditorModel._keybindingItems
                    (KeybindingsEditorModel.resolve services this))) as S.
  { unfold KeybindingsEditorModel.resolve. simpl.
    eapply Permutation_Forall; [symmetry; apply sort_Permutation|].
    rewrite collect_entries.
    assert (forall command item editorActions,
              commandDefaultLabel
                (KeybindingsEditorModel.toKeybindingEntry services command item editorActions)
              = None) as T.
    { intros. simpl. unfold KeybindingsEditorModel.getCommandDefaultLabel.
      now rewrite L, String.eqb_refl. }
    apply Forall_app. split.
    - induction (getKeybindings services) as [|k ks IH]; [constructor|].
      cbn [flat_map]. apply Forall_app. split; [|exact IH].
      unfold KeybindingsEditorModel.addBound.
      destruct (resolvedKeybindingItem.command k) as [cmd|]; [|constructor].
      destruct (strings.truthy cmd); [|constructor].
      constructor; [apply T | constructor].
    - induction (getAllUnboundCommands services _) as [|c cs IH]; [constructor|].
      cbn [flat_map]. apply Forall_app. split; [|exact IH].
      constructor; [apply T | constructor]. }
  split; [exact S|].
  pose proof (fetch_results (KeybindingsEditorModel.resolve services this) query) as R.
  rewrite List.Forall_forall in R, S |- *. intros result I.
  destruct (R result I) as [M A]. specialize (S _ M).
  change (IKeybindingItemEntry.commandDefaultLabelMatches result)
    with (KeybindingItemMatches.commandDefaultLabelMatches (annotations result)).
  destruct A as [-> | ->]; [reflexivity|].
  unfold matchEntry, KeybindingItemMatches.new. simpl. now rewrite S.
Qed.

Lemma resolve_default_language_witness :
  let this := KeybindingsEditorModel.resolve rebuildExample.services
                (KeybindingsEditorModel.new platform.Linux) in
  Forall (fun entry => commandDefaultLabel entry = None)
         (KeybindingsEditorModel._keybindingItems this)
  /\ Forall (fun result => IKeybindingItemEntry.commandDefaultLabelMatches result = None)
            (@KeybindingsEditorModel.fetch wordMatchers.model this "do").
Proof.
  cbv zeta.
  apply (@resolve_default_language wordMatchers.model rebuildExample.services
           (KeybindingsEditorModel.new platform.Linux) "do").
  reflexivity.
Defined.

(** ** The words of the query *)

Lemma split_nonempty sep s : strings.split sep s <> [].
Proof.
  destruct s as [|c s]; simpl; [discriminate|].
  destruct (Ascii.eqb c sep); [discriminate|].
  now destruct (strings.split sep s).
Qed.

Lemma split_concat sep s :
  String.concat (String sep "") (strings.split sep s) = s.
Proof.
  induction s as [|c s IH]; [reflexivity|].
  pose proof (split_nonempty sep s) as N.
  cbn [strings.split].
  destruct (Ascii.eqb_spec c sep) as [->|D].
  - destruct (strings.split sep s) as [|h t]; [congruence|].
    change (String.concat (String sep "") ("" :: h :: t))
      with (String sep (String.concat (String sep "") (h :: t))).
    now rewrite IH.
  - destruct (strings.split sep s) as [|h t]; [congruence|].
    destruct t as [|h' t].
    + change (String c h = String c s). now rewrite <- IH.
    + change (String c (String.concat (String sep "") (h :: h' :: t)) = String c s).
      now rewrite IH.
Qed.

Lemma split_pieces sep s :
  Forall (fun piece => hasChar sep piece = false) (strings.split sep s).
Proof.
  induction s as [|c s IH]; simpl; [now constructor|].
  destruct (Ascii.eqb c sep) eqn:E.
  - now constructor.
  - destruct (strings.split sep s) as [|h t]; [now constructor; [simpl; rewrite E|]|].
    inversion IH as [|? ? Hh Ht]; subst.
    constructor; [simpl; now rewrite E, Hh | exact Ht].
Qed.

(** X16.  The key-words of a query are never an empty list; joined again by
    the separator that split them ('+' when the query holds one, a space
    otherwise) they give the query back, and no key-word holds that
    separator.  The same holds for the words of the query and the space. *)
Theorem query_words_roundtrip (searchValue : string) :
  let sep := if isSome (strings.indexOf searchValue "+") then "+"%char else " "%char in
  let keybindingWords := KeybindingsEditorModel.keybindingWordsOf searchValue in
  let words := strings.split " " searchValue in
  keybindingWords <> []
  /\ String.concat (String sep "") keybindingWords = searchValue
  /\ Forall (fun word => hasChar sep word = false) keybindingWords
  /\ words <> []
  /\ String.concat " " words = searchValue
  /\ Forall (fun word => hasChar " " word = false) words.
Proof.
  cbv zeta. unfold KeybindingsEditorModel.keybindingWordsOf.
  destruct (isSome (strings.indexOf searchValue "+"));
    repeat split;
    try apply split_nonempty; try apply split_concat; try apply split_pieces.
Qed.

(** ** What a search is sure to find *)

Lemma matches_occurs `{filters.WordMatchers}
    (searchValue wordToMatchAgainst : string)
    (wordMatchesFilter : filters.IFilter) (words : list string) :
  occursIgnoringCase searchValue wordToMatchAgainst ->
  isSome (KeybindingItemMatches.matches searchValue wordToMatchAgainst
            wordMatchesFilter words) = true.
Proof.
  intros O. apply matchesContiguousSubString_isSome in O.
  unfold KeybindingItemMatches.matches, KeybindingItemMatches.wordFilter. simpl.
  destruct (filters.matchesPrefix _ _); [reflexivity|].
  destruct (filters.matchesWords _ _ _); [reflexivity|].
  now destruct (filters.matchesContiguousSubString _ _).
Qed.

Lemma occurs_nonempty query text :
  query <> "" -> occursIgnoringCase query text -> text <> "".
Proof.
  intros N (before & after & E) ->. simpl in E.
  symmetry in E. apply append_empty in E as [_ E].
  apply append_empty in E as [E _]. apply N, toLowerCase_empty, E.
Qed.

(** X17.  A search is sure to return a stored entry when the trimmed,
    non-empty query occurs, ignoring case, in the entry's command, label,
    default label, source or when-condition, or is a full label of its key
    combination; an entry with neither label nor key combination is thus still
    found by a piece of its command identifier. *)
Theorem fetch_finds `{filters.WordMatchers}
    (this : KeybindingsEditorModel.t) (query : string) (entry : IKeybindingItem) :
  In entry (KeybindingsEditorModel._keybindingItems this) ->
  strings.trim query <> "" ->
  occursIgnoringCase (strings.trim query) (command entry)
  \/ occursIgnoringCase (strings.trim query) (commandLabel entry)
  \/ (exists defaultLabel, commandDefaultLabel entry = Some defaultLabel
        /\ occursIgnoringCase (strings.trim query) defaultLabel)
  \/ occursIgnoringCase (strings.trim query) (source entry)
  \/ occursIgnoringCase (strings.trim query) (when entry)
  \/ (exists keyCombination, keybinding entry = Some keyCombination
        /\ isFullLabel keyCombination (strings.trim query)) ->
  In entry (map IKeybindingItemEntry.keybindingItem
                (KeybindingsEditorModel.fetch this query)).
Proof.
  intros I N O. unfold KeybindingsEditorModel.fetch.
  rewrite (proj2 (truthy_nonempty _) N), fetchKeybindingItems_items.
  apply filter_In. split; [exact I|].
  unfold anyFieldMatches, matchEntry, KeybindingItemMatches.new. simpl.
  destruct O as [O|[O|[(defaultLabel & E & O)|[O|[O|(keyCombination & E & O)]]]]].
  - now rewrite (matches_occurs _ _ _ _ O).
  - rewrite (proj2 (truthy_nonempty _) (occurs_nonempty _ _ N O)).
    rewrite (matches_occurs _ _ _ _ O). now rewrite !orb_true_r.
  - rewrite E, (proj2 (truthy_nonempty _) (occurs_nonempty _ _ N O)).
    rewrite (matches_occurs _ _ _ _ O). now rewrite !orb_true_r.
  - rewrite (matches_occurs _ _ _ _ O). now rewrite !orb_true_r.
  - rewrite (proj2 (truthy_nonempty _) (occurs_nonempty _ _ N O)).
    rewrite (matches_occurs _ _ _ _ O). now rewrite !orb_true_r.
  - rewrite E. unfold KeybindingItemMatches.matchesKeybinding.
    unfold isFullLabel in O. rewrite <- !compareIgnoreCase_zero in O.
    assert ((strings.compareIgnoreCase (strings.trim query)
               (keyCodes.getAriaLabel keyCombination) =? 0)%Z
            || (strings.compareIgnoreCase (strings.trim query)
                  (keyCodes.getLabel keyCombination) =? 0)%Z = true) as ->
      by (apply orb_true_iff; now rewrite !Z.eqb_eq).
    now rewrite !orb_true_r.
Qed.

Lemma fetch_finds_witness :
  let entry := examples.entry None "" "fruit.apple" false in
  In entry
     (map IKeybindingItemEntry.keybindingItem
          (@KeybindingsEditorModel.fetch wordMatchers.model
             {| KeybindingsEditorModel.modifierLabels := examples.labels platform.Linux;
                KeybindingsEditorModel._keybindingItems := [entry] |}
             " IT.APP ")).
Proof.
  cbv zeta.
  apply (@fetch_finds wordMatchers.model
           {| KeybindingsEditorModel.modifierLabels := examples.labels platform.Linux;
              KeybindingsEditorModel._keybindingItems :=
                [examples.entry None "" "fruit.apple" false] |}
           " IT.APP "
           (examples.entry None "" "fruit.apple" false)).
  - now left.
  - discriminate.
  - left. now exists "fru", "le".
Defined.
